(** * AI Chat Bridge OCR: a shallow embedding of the relay pipeline

    The Python sources embedded here are
    - [src/gui/main_window.py]  (the bridge loop, change detection, reply
      extraction),
    - [src/core/ocr_processor.py] (text extraction with two engines),
    - [src/core/auto_typer.py] (message cleaning and delivery),
    - [src/core/conversation_manager.py] (the persistent message store),
    - [src/core/config_manager.py] (reading and writing dotted keys),
    - [src/core/screen_capture.py] (the check of a region),
    - [src/gui/region_selector_window.py] (the region a drag selects).

    A Python [str] is a sequence of Unicode code points, so it is modelled
    as a list of [N].  Character classes of ASCII code points are written
    out; those of the other code points come from a table that every
    definition takes as a parameter. *)

From Stdlib Require Import String Ascii QArith SpecFloat.
From stdpp Require Import base numbers list gmap.

Local Open Scope N_scope.

(** ** Python strings *)

Module Py.

Definition str := list N.

(** An ASCII literal as a Python string. *)
Definition lit (s : string) : str :=
  List.map N_of_ascii (list_ascii_of_string s).

(** What the Unicode database decides for code points above 127. *)
Record UnicodeTables := {
  uni_isspace : N → bool;
  uni_isword : N → bool;
  uni_isdigit : N → bool;
  (* lower-casing of one character, given the text before and after it
     (the final-sigma rule looks at both) *)
  uni_lower : str → N → str → str
}.

(** Tables under which no code point above 127 is white space, a word
    character or a digit, and lower-casing leaves them alone. *)
Definition plain_tables : UnicodeTables :=
  {| uni_isspace := λ _, false;
     uni_isword := λ _, false;
     uni_isdigit := λ _, false;
     uni_lower := λ _ c _, [c] |}.

Definition is_ascii (c : N) : bool := c <? 128.

Definition between (lo hi c : N) : bool := (lo <=? c) && (c <=? hi).

Definition NL : N := 10.
Definition TAB : N := 9.
Definition BS : N := 8.
Definition SP : N := 32.

Section WithTables.
Variable U : UnicodeTables.

(** [str.isspace] on one character, which is also the class [\s] of [re]:
    TAB, LF, VT, FF, CR, the separators 0x1c to 0x1f and the space. *)
Definition isspace (c : N) : bool :=
  if is_ascii c then between 9 13 c || between 28 31 c || (c =? 32)
  else uni_isspace U c.

(** The class [\w] of [re] on one character. *)
Definition isword (c : N) : bool :=
  if is_ascii c
  then between 48 57 c || between 65 90 c || between 97 122 c || (c =? 95)
  else uni_isword U c.

Definition isdigit_char (c : N) : bool :=
  if is_ascii c then between 48 57 c else uni_isdigit U c.

(** [s.isdigit()]: at least one character and all of them digits. *)
Definition isdigit (s : str) : bool :=
  match s with
  | [] => false
  | _ => forallb isdigit_char s
  end.

Fixpoint lstrip (s : str) : str :=
  match s with
  | [] => []
  | c :: r => if isspace c then lstrip r else s
  end.

Definition rstrip (s : str) : str := rev (lstrip (rev s)).

(** [s.strip()] *)
Definition strip (s : str) : str := rstrip (lstrip s).

(** [s.lower()]: ASCII capitals move down by 32, other ASCII characters
    stay, the rest is looked up with its context. *)
Fixpoint lower_from (before s : str) : str :=
  match s with
  | [] => []
  | c :: r =>
      (if is_ascii c then [if between 65 90 c then c + 32 else c]
       else uni_lower U before c r)
      ++ lower_from (before ++ [c]) r
  end.

Definition lower (s : str) : str := lower_from [] s.

(** [s.split()]: the maximal runs of characters that are not white space. *)
Fixpoint split_ws_go (cur : str) (s : str) : list str :=
  match s with
  | [] => match cur with [] => [] | _ => [rev cur] end
  | c :: r =>
      if isspace c
      then match cur with
           | [] => split_ws_go [] r
           | _ => rev cur :: split_ws_go [] r
           end
      else split_ws_go (c :: cur) r
  end.

Definition split_ws (s : str) : list str := split_ws_go [] s.

(** [re.sub(r'\s+', ' ', s)]: every maximal run of white space becomes one
    space. *)
Fixpoint collapse_ws_go (in_run : bool) (s : str) : str :=
  match s with
  | [] => []
  | c :: r =>
      if isspace c
      then (if in_run then collapse_ws_go true r
            else SP :: collapse_ws_go true r)
      else c :: collapse_ws_go false r
  end.

Definition collapse_ws (s : str) : str := collapse_ws_go false s.

End WithTables.

(** [s.split(sep)] for a one-character separator: always at least one
    piece. *)
Fixpoint split_on (sep : N) (s : str) : list str :=
  match s with
  | [] => [[]]
  | c :: r =>
      if c =? sep then [] :: split_on sep r
      else match split_on sep r with
           | [] => [[c]]
           | p :: ps => (c :: p) :: ps
           end
  end.

(** [sep.join(parts)] *)
Fixpoint join (sep : str) (parts : list str) : str :=
  match parts with
  | [] => []
  | [p] => p
  | p :: ps => p ++ sep ++ join sep ps
  end.

Fixpoint prefix_b (p s : str) : bool :=
  match p, s with
  | [], _ => true
  | _ :: _, [] => false
  | a :: p', b :: s' => (a =? b) && prefix_b p' s'
  end.

(** [s.startswith(p)] and [s.endswith(p)] *)
Definition startswith (s p : str) : bool := prefix_b p s.
Definition endswith (s p : str) : bool := prefix_b (rev p) (rev s).

(** [needle in hay] on strings. *)
Fixpoint contains (needle hay : str) : bool :=
  prefix_b needle hay ||
  match hay with
  | [] => false
  | _ :: r => contains needle r
  end.

(** [c in s] for one character. *)
Definition has_char (c : N) (s : str) : bool := existsb (N.eqb c) s.

(** [x in l] for a list of strings. *)
Definition str_in (x : str) (l : list str) : bool :=
  existsb (λ y, bool_decide (x = y)) l.

(** [s[:n]], also for a negative bound. *)
Definition slice_to (n : Z) (s : str) : str :=
  if (0 <=? n)%Z then List.firstn (Z.to_nat n) s
  else List.firstn (length s - Z.to_nat (- n))%nat s.

(** [len(s)] of a string and [len(l)] of a list. *)
Definition len (s : str) : Z := Z.of_nat (length s).
Definition len_list {A} (l : list A) : Z := Z.of_nat (length l).

Definition is_empty (s : str) : bool :=
  match s with [] => true | _ => false end.

(** [l.sort(key=len, reverse=True)]: longest first, and lines of one
    length stay in the order they had (the sort is stable). *)
Fixpoint insert_by_len (x : str) (l : list str) : list str :=
  match l with
  | [] => [x]
  | y :: r =>
      if (length y <=? length x)%nat then x :: l
      else y :: insert_by_len x r
  end.

Fixpoint sort_by_len_desc (l : list str) : list str :=
  match l with
  | [] => []
  | x :: r => insert_by_len x (sort_by_len_desc r)
  end.

(** Does [s.encode('utf-8')] return?  It raises [UnicodeEncodeError]
    exactly when the string holds a surrogate code point, U+D800 to
    U+DFFF. *)
Definition is_surrogate (c : N) : bool := between 0xd800 0xdfff c.

Definition encodes (s : str) : bool := negb (existsb is_surrogate s).


End Py.

(** ** [AutoTyper]: delivery of a message into a screen region

    The calls into [pyautogui] and [pyperclip] are recorded, in order, in
    the state; whether the n-th call raises is the environment's choice,
    and so are the random click offsets.  A call is recorded also when it
    raises.  Pauses ([time.sleep]) leave no mark on the target and are not
    recorded; their lengths are not negative (the typing delays are the
    defaults of [__init__]), so that no pause raises. *)

Module AutoTyper.
Import Py.

Inductive call :=
| Click (x y : Z)
| Press (key : string)
| Hotkey (k1 k2 : string)
| Write (c : N)
| ClipboardPaste
| ClipboardCopy (s : str).

Record Env := {
  raises : nat → bool;   (* does the n-th call raise? *)
  rand : nat → Z         (* the n-th random draw *)
}.

Record Gui := {
  calls : list call;     (* oldest first *)
  clipboard : str;
  draws : nat
}.

Record Config := {
  use_clipboard : bool;          (* typing.use_clipboard, default True *)
  max_message_length : Z         (* typing.max_message_length, default 2000 *)
}.

Definition default_config : Config :=
  {| use_clipboard := true; max_message_length := 2000 |}.

(** A computation that may raise: [None] is a raised exception. *)
Definition M (A : Type) : Type := Gui → option A * Gui.

#[export] Instance M_ret : MRet M := λ A a g, (Some a, g).

#[export] Instance M_bind : MBind M := λ A B k m g,
  match m g with
  | (Some a, g') => k a g'
  | (None, g') => (None, g')
  end.

(** [try: m except Exception: h] *)
Definition try_except {A} (m : M A) (h : M A) : M A :=
  λ g, match m g with
       | (Some a, g') => (Some a, g')
       | (None, g') => h g'
       end.

Section WithEnv.
Variable U : UnicodeTables.
Variable E : Env.

Definition effect (c : call) (g : Gui) : Gui :=
  match c with
  | ClipboardCopy s =>
      {| calls := calls g; clipboard := s; draws := draws g |}
  | _ => g
  end.

Definition record_call (c : call) (g : Gui) : Gui :=
  {| calls := calls g ++ [c]; clipboard := clipboard g; draws := draws g |}.

(** One call into the injection library. *)
Definition do_call (c : call) : M unit :=
  λ g, if raises E (length (calls g)) then (None, record_call c g)
       else (Some (), effect c (record_call c g)).

(** [pyperclip.paste()] *)
Definition paste : M str :=
  do_call ClipboardPaste;; ((λ g, (Some (clipboard g), g)) : M str).

(** [random.randint(lo, hi)] *)
Definition randint (lo hi : Z) : M Z :=
  λ g, (Some (lo + rand E (draws g) `mod` (hi - lo + 1))%Z,
        {| calls := calls g; clipboard := clipboard g;
           draws := S (draws g) |}).

(** [self.special_keys] *)
Definition special_keys (c : N) : option string :=
  if c =? NL then Some "enter"%string
  else if c =? TAB then Some "tab"%string
  else if c =? BS then Some "backspace"%string
  else None.

(** The class [[\x00-\x08\x0b\x0c\x0e-\x1f\x7f]]. *)
Definition is_control (c : N) : bool :=
  between 0 8 c || (c =? 11) || (c =? 12) || between 14 31 c || (c =? 127).

Definition is_cjk (c : N) : bool := between 0x4e00 0x9fff c.

(** [_clean_message(message)].  Its [except] branch is not modelled: with
    a string and an integer bound nothing in the body raises. *)
Definition _clean_message (cfg : Config) (message : str) : str :=
  let message := collapse_ws U message in
  let message := List.filter (λ c, negb (is_control c)) message in
  let max_length := max_message_length cfg in
  let message :=
    if (max_length <? len message)%Z
    then slice_to max_length message ++ lit "..."
    else message in
  strip U message.

(** [_can_use_clipboard(message)].  The test
    [chinese_chars > len(message) * 0.3] is on the exact product: for a
    length below 2^53 the double product compares with an integer the same
    way. *)
Definition _can_use_clipboard (message : str) : bool :=
  if (len message <? 20)%Z then false
  else if existsb (λ char, bool_decide (is_Some (special_keys char))) message
  then false
  else
    let chinese_chars := len (List.filter is_cjk message) in
    if (3 * len message <? 10 * chinese_chars)%Z then true
    else if (100 <? len message)%Z then true
    else false.

(** [int(v * 0.9)] and the like on an integer [v]: the product truncated
    towards zero. *)
Definition tenths (k v : Z) : Z := Z.quot (k * v) 10.

Definition click_positions (region : Z * Z * Z * Z) : list (Z * Z) :=
  let '(x, y, width, height) := region in
  [ (x + width `div` 2, y + tenths 9 height);
    (x + width `div` 2, y + tenths 8 height);
    (x + tenths 2 width, y + tenths 9 height);
    (x + tenths 8 width, y + tenths 9 height) ]%Z.

Definition click_once (pos : Z * Z) : M unit :=
  offset_x ← randint (-5) 5;
  offset_y ← randint (-3) 3;
  do_call (Click (fst pos + offset_x) (snd pos + offset_y));;
  do_call (Press "space");;
  do_call (Press "backspace").

Fixpoint click_any (positions : list (Z * Z)) : M bool :=
  match positions with
  | [] => mret false
  | pos :: rest =>
      try_except (click_once pos;; mret true) (click_any rest)
  end.

(** [_click_target_region(region)] *)
Definition _click_target_region (region : Z * Z * Z * Z) : M bool :=
  click_any (click_positions region).

(** [_type_with_clipboard(message)] *)
Definition _type_with_clipboard (message : str) : M bool :=
  try_except
    (original_clipboard ← try_except paste (mret []);
     do_call (ClipboardCopy message);;
     do_call (Hotkey "ctrl" "a");;
     do_call (Hotkey "ctrl" "v");;
     try_except
       (match original_clipboard with
        | [] => mret ()
        | _ => do_call (ClipboardCopy original_clipboard)
        end)
       (mret ());;
     mret true)
    (mret false).

Definition type_char (char : N) : M unit :=
  match special_keys char with
  | Some key => do_call (Press key)
  | None => do_call (Write char)
  end.

Fixpoint type_chars (message : str) : M unit :=
  match message with
  | [] => mret ()
  | char :: rest => type_char char ;; type_chars rest
  end.

(** [_type_character_by_character(message)] *)
Definition _type_character_by_character (message : str) : M bool :=
  try_except
    (do_call (Hotkey "ctrl" "a");;
     do_call (Press "delete");;
     type_chars message;;
     mret true)
    (mret false).

(** [type_message(target_region, message)] *)
Definition type_message (cfg : Config) (target_region : Z * Z * Z * Z)
    (message : str) : M bool :=
  try_except
    (if is_empty message || is_empty (strip U message) then mret false
     else
       let cleaned_message := _clean_message cfg message in
       focused ← _click_target_region target_region;
       if negb focused : bool then mret false
       else
         success ←
           (if use_clipboard cfg && _can_use_clipboard cleaned_message
            then _type_with_clipboard cleaned_message
            else _type_character_by_character cleaned_message);
         if success : bool then (do_call (Press "enter");; mret true)
         else mret false)
    (mret false).

End WithEnv.

(** *** The calls of a delivery, for stating what was sent *)

(** The key press or character write that types one character. *)
Definition char_call (c : N) : call :=
  match special_keys c with
  | Some key => Press key
  | None => Write c
  end.

(** The calls of the bulk mode for [text], when the clipboard held
    [before]. *)
Definition bulk_calls (before text : str) : list call :=
  [ClipboardPaste; ClipboardCopy text; Hotkey "ctrl" "a"; Hotkey "ctrl" "v"]
  ++ match before with [] => [] | _ => [ClipboardCopy before] end.

(** The calls of the incremental mode for [text]. *)
Definition incremental_calls (text : str) : list call :=
  [Hotkey "ctrl" "a"; Press "delete"] ++ List.map char_call text.

(** The calls that focus the input box: one click near the bottom centre,
    then a space and a backspace. *)
Definition focus_calls (E : Env) (region : Z * Z * Z * Z) (n : nat)
    : list call :=
  let '(x, y, width, height) := region in
  [ Click (x + width `div` 2 + (-5 + rand E n `mod` 11))
          (y + tenths 9 height + (-3 + rand E (S n) `mod` 7));
    Press "space"; Press "backspace" ]%Z.



(** A call that [_click_target_region] may make on a region: a key
    press, or a click at most 5 pixels beside and 3 pixels above or below
    the region. *)
Definition near_region (region : Z * Z * Z * Z) (c : call) : Prop :=
  let '(x, y, width, height) := region in
  match c with
  | Click cx cy =>
      (x - 5 ≤ cx ≤ x + width + 5)%Z ∧ (y - 3 ≤ cy ≤ y + height + 3)%Z
  | Press _ => True
  | _ => False
  end.

Definition is_click (c : call) : bool :=
  match c with Click _ _ => true | _ => false end.


Definition fresh_gui : Gui := {| calls := []; clipboard := []; draws := 0 |}.

(** An environment in which no call raises and every draw is 0. *)
Definition calm : Env := {| raises := λ _, false; rand := λ _, 0%Z |}.


(** An environment in which the eighth call raises: in a bulk delivery
    focused at the first click, that is the call that puts the former
    clipboard back. *)
Definition restore_fails : Env :=
  {| raises := λ n, (n =? 7)%nat; rand := λ _, 0%Z |}.

(** A reply of 108 characters. *)
Definition long_reply : str :=
  lit "This is a rather long reply that goes on for a while, so that it is well beyond one hundred characters long.".

End AutoTyper.

(** ** [OCRProcessor]: text extraction with two engines and a cache

    One call of [extract_text] talks to the outside several times (the PNG
    encoder, the clock, the two engines).  A [Reading] holds what the
    outside answers during that call; an answer [None] stands for an
    exception raised inside the [try] of the method that asks.  A
    confidence is a double, hence a rational; the doubles the code
    computes itself are computed with the binary64 operations of
    [SpecFloat]. *)

Module OCRProcessor.
Import Py.

Record Span := { span_text : str; confidence : Q }.

Record Reading := {
  png_md5 : option str;        (* hashlib.md5 of the saved PNG *)
  timestamp : str;             (* str(datetime.now().timestamp()) *)
  readtext : option (list Span);        (* easyocr_reader.readtext *)
  image_to_string : option str;         (* pytesseract.image_to_string *)
  image_to_data_text : list str;        (* column 'text' of image_to_data *)
  image_to_data_conf : option (list Z)  (* column 'conf', after int() *)
}.

Record Processor := {
  confidence_threshold : Z;    (* ocr.confidence_threshold, default 60 *)
  easyocr_reader : bool;       (* is a reader there? *)
  tesseract_available : bool;
  text_cache : list (str * str);   (* a dict: insertion order matters *)
  cache_size_limit : nat
}.

(** [__init__]: Tesseract is probed only when EasyOCR did not start. *)
Definition init (threshold : Z) (easyocr_starts tesseract_found : bool)
    : Processor :=
  {| confidence_threshold := threshold;
     easyocr_reader := easyocr_starts;
     tesseract_available :=
       if easyocr_starts then false else tesseract_found;
     text_cache := [];
     cache_size_limit := 1000 |}.

(** Dictionary operations on the cache. *)
Fixpoint cache_get (k : str) (d : list (str * str)) : option str :=
  match d with
  | [] => None
  | (k', v) :: r => if bool_decide (k = k') then Some v else cache_get k r
  end.

Fixpoint cache_set (k v : str) (d : list (str * str)) : list (str * str) :=
  match d with
  | [] => [(k, v)]
  | (k', v') :: r =>
      if bool_decide (k = k') then (k, v) :: r
      else (k', v') :: cache_set k v r
  end.

(** [float(n)] of an integer: the nearest double, ties to even; [None]
    stands for the [OverflowError] of an integer that rounds beyond the
    largest double. *)
Definition float_of_int (n : Z) : option spec_float :=
  match binary_normalize 53 1024 n 0 false with
  | S754_infinity _ => None
  | S754_nan => None
  | f => Some f
  end.

Definition double_100 : spec_float := binary_normalize 53 1024 100 0 false.

(** The rational that a finite double is. *)
Definition Q_of_float (f : spec_float) : option Q :=
  match f with
  | S754_zero _ => Some (Qmake 0 1)
  | S754_finite s m e =>
      let m := if s then Z.neg m else Z.pos m in
      Some (match e with
            | Z.neg k => Qmake m (Pos.pow 2 k)
            | _ => Qmake (m * 2 ^ e) 1
            end)
  | _ => None
  end.

Section WithTables.
Variable U : UnicodeTables.

(** [confidence_threshold / 100.0]: the integer threshold becomes a
    double, which is divided by the double 100.0; [None] when the
    conversion raises.  So at the threshold 60 the ratio is the double
    0.6, which is 5404319552844595 / 2^53 and lies below 3/5. *)
Definition threshold_ratio (p : Processor) : option Q :=
  match float_of_int (confidence_threshold p) with
  | None => None
  | Some threshold => Q_of_float (SFdiv 53 1024 threshold double_100)
  end.

(** [_extract_with_easyocr(image)].  The ratio is computed once per span,
    so a conversion that raises does so at the first span and the
    [except] returns the empty text; with no span the join of nothing is
    the empty text as well. *)
Definition _extract_with_easyocr (p : Processor) (r : Reading) : str :=
  match readtext r with
  | None => []
  | Some results =>
      match threshold_ratio p with
      | None => []
      | Some ratio =>
          let text_parts :=
            List.map span_text
              (List.filter (λ s, Qle_bool ratio (confidence s)) results) in
          join [SP] text_parts
      end
  end.

(** [_extract_with_tesseract(image)]: the confidences only decide whether
    a warning is logged. *)
Definition _extract_with_tesseract (p : Processor) (r : Reading) : str :=
  match image_to_string r with
  | None => []
  | Some text =>
      match image_to_data_conf r with
      | None => []
      | Some conf =>
          let confidences := List.filter (λ c, (0 <? c)%Z) conf in
          strip U text
      end
  end.

(** The characters [_post_process_text] keeps:
    word characters, white space, U+4E00 to U+9FFF and the punctuation
    listed, which ends with the double quote (34). *)
Definition allowed_char (c : N) : bool :=
  isword U c || isspace U c || between 0x4e00 0x9fff c
  || existsb (N.eqb c) (lit ".,!?;:()[]{}'-" ++ [34]).

(** [_post_process_text(text)]; [_fix_common_ocr_errors] returns its
    argument. *)
Definition _post_process_text (text : str) : str :=
  match text with
  | [] => []
  | _ =>
      let text := collapse_ws U text in
      let text := List.filter allowed_char text in
      strip U text
  end.

(** [_get_image_hash(image)] *)
Definition _get_image_hash (r : Reading) : str :=
  match png_md5 r with
  | Some h => h
  | None => timestamp r
  end.

Definition with_text_cache (cache : list (str * str)) (p : Processor)
    : Processor :=
  {| confidence_threshold := confidence_threshold p;
     easyocr_reader := easyocr_reader p;
     tesseract_available := tesseract_available p;
     text_cache := cache;
     cache_size_limit := cache_size_limit p |}.

(** [_cache_text(image_hash, text)]: at the limit the oldest entry goes.
    At the limit with nothing cached (a limit of 0) there is no oldest
    key: [next(iter({}))] raises, and the [except] leaves the cache as it
    is. *)
Definition _cache_text (p : Processor) (image_hash text : str) : Processor :=
  if (cache_size_limit p <=? length (text_cache p))%nat then
    match text_cache p with
    | [] => p
    | _ :: rest => with_text_cache (cache_set image_hash text rest) p
    end
  else with_text_cache (cache_set image_hash text (text_cache p)) p.

(** The text the engines give, before post-processing. *)
Definition engines_text (p : Processor) (r : Reading) : str :=
  if easyocr_reader p then
    let text := _extract_with_easyocr p r in
    if negb (is_empty text) && (0 <? len (strip U text))%Z then text
    else if tesseract_available p then _extract_with_tesseract p r
    else text
  else if tesseract_available p then _extract_with_tesseract p r
  else [].

(** [extract_text(image)]: the text and the processor afterwards. *)
Definition extract_text (p : Processor) (r : Reading) : str * Processor :=
  let image_hash := _get_image_hash r in
  match cache_get image_hash (text_cache p) with
  | Some cached => (cached, p)
  | None =>
      let processed_text := _post_process_text (engines_text p r) in
      (processed_text, _cache_text p image_hash processed_text)
  end.


(** An engine that is there fails on a reading when its call raises or
    what it returns holds no text. *)
Definition engines_fail (p : Processor) (r : Reading) : Prop :=
  (easyocr_reader p = true →
   readtext r = None ∨ strip U (_extract_with_easyocr p r) = [])
  ∧ (tesseract_available p = true →
     image_to_string r = None ∨ image_to_data_conf r = None
     ∨ _extract_with_tesseract p r = []).

End WithTables.

(** Without any engine every cached text is empty, so a hit changes
    nothing. *)
Definition no_engine_state (p : Processor) : Prop :=
  easyocr_reader p = false ∧ tesseract_available p = false
  ∧ Forall (λ entry, entry.2 = []) (text_cache p).


(** A reading with two spans: one of confidence 0.12, and one whose
    confidence is the double 0.6 itself. *)
Definition borderline_spans : list Span :=
  [ {| span_text := lit "zq"; confidence := 0.12 |};
    {| span_text := lit "kept";
       confidence := 5404319552844595 # 9007199254740992 |} ].

Definition borderline : Reading :=
  {| png_md5 := Some (lit "5be1"); timestamp := lit "1718600003.0";
     readtext := Some borderline_spans;
     image_to_string := Some (lit "zq kept");
     image_to_data_text := [lit "zq"; lit "kept"];
     image_to_data_conf := Some [12%Z; 60%Z] |}.

(** [detect_language(text)].  The two tests on [chinese_ratio] are on
    the exact quotient; the double quotient compares with 0.7 and 0.3 the
    same way as long as the text has fewer than 2^50 letters. *)
Definition is_latin_letter (c : N) : bool :=
  between 65 90 c || between 97 122 c.

Definition detect_language (text : str) : string :=
  match text with
  | [] => "unknown"
  | _ =>
      let chinese_chars := len (List.filter (between 0x4e00 0x9fff) text) in
      let english_chars := len (List.filter is_latin_letter text) in
      let total_chars := (chinese_chars + english_chars)%Z in
      if (total_chars =? 0)%Z then "unknown"
      else if (7 * total_chars <? 10 * chinese_chars)%Z then "zh"
      else if (10 * chinese_chars <? 3 * total_chars)%Z then "en"
      else "mixed"
  end%string.

End OCRProcessor.

(** ** [ConversationManager]: the message store with duplicate check

    The SQLite table [messages] is a list of rows.  [db_up] says whether
    the database answers during the call; a failing query or insert is
    caught inside the method that issued it. *)

Module ConversationManager.
Import Py.

Record Message := {
  session_id : str;
  sender : str;
  recipient : str;
  content : str;
  message_hash : str
}.

Record Manager := {
  auto_save : bool;                (* conversation.auto_save, default True *)
  message_cache : list Message;
  messages : list Message          (* the table *)
}.

Section WithHash.
(** The MD5 digest, in hexadecimal, of the UTF-8 bytes of a string that
    has such bytes. *)
Variable md5_hex : str → str.

(** [calculate_message_hash(content)], that is
    [hashlib.md5(content.encode('utf-8')).hexdigest()]: [None] when the
    encoding raises. *)
Definition calculate_message_hash (content : str) : option str :=
  if encodes content then Some (md5_hex content) else None.

(** [is_duplicate_message(session_id, message_hash)] *)
Definition is_duplicate_message (db_up : bool) (m : Manager)
    (session message_hash' : str) : bool :=
  if db_up then
    let count :=
      length (List.filter
                (λ row, bool_decide (session_id row = session)
                        && bool_decide (message_hash row = message_hash'))
                (messages m)) in
    (0 <? count)%nat
  else false.

(** [save_cached_messages()] *)
Definition save_cached_messages (db_up : bool) (m : Manager) : Manager :=
  match message_cache m with
  | [] => m
  | cache =>
      if db_up then
        {| auto_save := auto_save m; message_cache := [];
           messages := messages m ++ cache |}
      else m
  end.

(** [add_message(session_id, sender, recipient, content)]: an exception
    of the hashing is caught by the method's [except], which answers
    [False]. *)
Definition add_message (db_up : bool) (m : Manager)
    (session sender' recipient' content' : str) : bool * Manager :=
  match calculate_message_hash content' with
  | None => (false, m)
  | Some message_hash' =>
      if is_duplicate_message db_up m session message_hash' then (false, m)
      else
        let message :=
          {| session_id := session; sender := sender';
             recipient := recipient'; content := content';
             message_hash := message_hash' |} in
        let m := {| auto_save := auto_save m;
                    message_cache := message_cache m ++ [message];
                    messages := messages m |} in
        let m := if auto_save m then save_cached_messages db_up m else m in
        (true, m)
  end.

End WithHash.

Definition empty_manager : Manager :=
  {| auto_save := true; message_cache := []; messages := [] |}.

End ConversationManager.

(** ** [MainWindow]: change detection, reply extraction, the bridge loop *)

Module MainWindow.
Import Py AutoTyper OCRProcessor.

Section WithTables.
Variable U : UnicodeTables.

(** [has_meaningful_change(old_content, new_content)].  The two line sets
    are Python sets, hence [gset]; only whether the comprehension over the
    difference is empty matters, so the order [elements] picks is free. *)
Definition has_meaningful_change (old_content new_content : str) : bool :=
  match old_content with
  | [] =>
      match new_content with
      | [] => false
      | _ => (10 <? len (strip U new_content))%Z
      end
  | _ =>
      let old_lines : gset str := list_to_set (split_on NL old_content) in
      let new_lines : gset str := list_to_set (split_on NL new_content) in
      let new_additions := new_lines ∖ old_lines in
      let meaningful_additions :=
        List.filter (λ line, (5 <? len (strip U line))%Z)
                    (elements new_additions) in
      (0 <? len_list meaningful_additions)%Z
  end.

(** The words and symbols that mark a line as interface chrome. *)
Definition filter_keywords : list str :=
  [ lit "time"; [0x65f6; 0x95f4]; [0x521a; 0x521a]; lit "just now";
    lit "ago"; [0x524d]; lit "seconds"; lit "minutes"; lit "hours";
    [0x79d2]; [0x5206; 0x949f]; [0x5c0f; 0x65f6]; [0x5929]; lit "days";
    lit "system"; [0x7cfb; 0x7edf]; lit "reply"; [0x56de; 0x590d];
    lit "send"; [0x53d1; 0x9001]; lit "submit"; [0x63d0; 0x4ea4];
    lit "button"; [0x6309; 0x94ae]; lit "click"; [0x70b9; 0x51fb];
    lit "menu"; [0x83dc; 0x5355]; lit "settings"; [0x8bbe; 0x7f6e];
    lit "tools"; [0x5de5; 0x5177]; lit "search"; [0x641c; 0x7d22];
    lit "claude"; lit "gpt"; lit "ai"; lit "typing";
    [0x6b63; 0x5728; 0x8f93; 0x5165]; lit "loading"; [0x52a0; 0x8f7d];
    lit "thinking"; [0x601d; 0x8003]; lit "preferences"; [0x504f; 0x597d];
    lit "user"; [0x7528; 0x6237]; lit "chat"; [0x804a; 0x5929]; [0x2022];
    [0x25cb]; [0x25cf]; [0x25e6]; [0x25aa]; [0x25ab]; [0x25a0]; [0x25a1];
    [0x25b2]; [0x25b3]; [0x25bc]; [0x25bd]; [0x2192]; [0x2190]; [0x2191];
    [0x2193]; [0x23f0]; [0x1f550]; [0x231a]; [0x1f4f1]; [0x1f4ac];
    [0x1f504]; lit "retry"; [0x91cd; 0x8bd5]; lit "cancel";
    [0x53d6; 0x6d88]; lit "confirm"; [0x786e; 0x8ba4]; lit "copy";
    [0x590d; 0x5236]; lit "paste"; [0x7c98; 0x8d34]; lit "edit";
    [0x7f16; 0x8f91]; lit "delete"; [0x5220; 0x9664]; lit "save";
    [0x4fdd; 0x5b58]; lit "export"; [0x5bfc; 0x51fa] ].

(** The first test of the loop over the lines:
    [any(keyword in line_lower for keyword in filter_keywords)]. *)
Definition has_filter_keyword (line : str) : bool :=
  let line_lower := lower U line in
  existsb (λ keyword, contains keyword line_lower) filter_keywords.

Definition too_short (line : str) : bool := (len line <? 8)%Z.

Definition few_words (line : str) : bool :=
  isdigit U line || (len_list (split_ws U line) <? 3)%Z.

Definition like_timestamp (line : str) : bool :=
  existsb (λ char, has_char char line) [58; 45] && (len line <? 20)%Z.

Definition like_link (line : str) : bool :=
  existsb (startswith line) [lit "http"; lit "www"; lit "@"; lit "#"]
  || existsb (endswith line) [lit "..."; [0x2192]; [0x2190]].

(** A line reaches [filtered_lines] when none of the five tests says
    [continue]. *)
Definition keeps_line (line : str) : bool :=
  negb (has_filter_keyword line) && negb (too_short line)
  && negb (few_words line) && negb (like_timestamp line)
  && negb (like_link line).

(** [lines = [line.strip() for line in content.split('\n') if line.strip()]] *)
Definition stripped_lines (content : str) : list str :=
  List.filter (λ l, negb (is_empty l))
              (List.map (strip U) (split_on NL content)).

Definition filtered_lines (content : str) : list str :=
  List.filter keeps_line (stripped_lines content).

(** [extract_latest_reply(content)] *)
Definition extract_latest_reply (content : str) : option str :=
  match content with
  | [] => None
  | _ =>
      let lines := stripped_lines content in
      match lines with
      | [] => None
      | _ =>
          match sort_by_len_desc (List.filter keeps_line lines) with
          | [] => None
          | [only] => Some only
          | first :: second :: _ =>
              let selected_lines := [first; second] in
              let original_order_lines :=
                List.filter (λ line, str_in line selected_lines) lines in
              Some (join [NL] original_order_lines)
          end
      end
  end.

(** [token] is [keyword] up to the case of its ASCII letters: at each
    place the same character, or the capital of a small letter. *)
Definition case_variant (token keyword : str) : Prop :=
  Forall2 (λ a b, a = b ∨ (between 97 122 b = true ∧ b = a + 32))
          token keyword.

(** The characters above 127 of the keywords are ideographs, symbols and
    pictographs, which have no case: the tables leave them alone. *)
Definition tables_keep_keywords : Prop :=
  ∀ keyword c before after,
    In keyword filter_keywords → In c keyword → is_ascii c = false →
    uni_lower U before c after = [c].

(** *** The bridge loop

    The clock counts the seconds the bridge thread sleeps; the time taken
    by a capture, by OCR and by typing is not counted.  [capture_region]
    and [extract_text] catch what they raise, so a poll cannot raise. *)

Inductive Side := Left | Right.

Definition opposite (side : Side) : Side :=
  match side with Left => Right | Right => Left end.

Record Window := {
  left_region : Z * Z * Z * Z;
  right_region : Z * Z * Z * Z;
  max_turns : nat;                 (* conversation.max_length, default 50 *)
  typer_config : AutoTyper.Config
}.

Record World := {
  (* the flag [is_running], which the foreground clears, at a clock time *)
  is_running : nat → bool;
  (* what a capture of a side's region at a clock time leads to;
     [None]: no screenshot *)
  screen : Side → nat → option Reading;
  gui_env : AutoTyper.Env
}.

Record Loop := {
  current_speaker : Side;
  last_left_content : str;
  last_right_content : str;
  conversation_turn : nat;
  now : nat;
  ocr : Processor;
  gui : Gui;
  (* the calls of [add_conversation_message], oldest first *)
  shown : list (Side * Side * str);
  (* the calls of [forward_message_to_side] with their results *)
  forwards : list (Side * str * bool)
}.

Definition with_time (t : nat) (s : Loop) : Loop :=
  {| current_speaker := current_speaker s;
     last_left_content := last_left_content s;
     last_right_content := last_right_content s;
     conversation_turn := conversation_turn s;
     now := t; ocr := ocr s; gui := gui s;
     shown := shown s; forwards := forwards s |}.

Definition with_ocr (p : Processor) (s : Loop) : Loop :=
  {| current_speaker := current_speaker s;
     last_left_content := last_left_content s;
     last_right_content := last_right_content s;
     conversation_turn := conversation_turn s;
     now := now s; ocr := p; gui := gui s;
     shown := shown s; forwards := forwards s |}.

Definition last_content (side : Side) (s : Loop) : str :=
  match side with
  | Left => last_left_content s
  | Right => last_right_content s
  end.

Definition with_last_content (side : Side) (text : str) (s : Loop) : Loop :=
  {| current_speaker := current_speaker s;
     last_left_content :=
       match side with Left => text | Right => last_left_content s end;
     last_right_content :=
       match side with Left => last_right_content s | Right => text end;
     conversation_turn := conversation_turn s;
     now := now s; ocr := ocr s; gui := gui s;
     shown := shown s; forwards := forwards s |}.

(** [add_conversation_message(from_side, to_side, message)] *)
Definition add_conversation_message (from_side to_side : Side)
    (message : str) (s : Loop) : Loop :=
  {| current_speaker := current_speaker s;
     last_left_content := last_left_content s;
     last_right_content := last_right_content s;
     conversation_turn := conversation_turn s;
     now := now s; ocr := ocr s; gui := gui s;
     shown := shown s ++ [(from_side, to_side, message)];
     forwards := forwards s |}.

Definition with_forward (target : Side) (message : str) (ok : bool)
    (g : Gui) (s : Loop) : Loop :=
  {| current_speaker := current_speaker s;
     last_left_content := last_left_content s;
     last_right_content := last_right_content s;
     conversation_turn := conversation_turn s;
     now := now s; ocr := ocr s; gui := g;
     shown := shown s;
     forwards := forwards s ++ [(target, message, ok)] |}.

(** [current_speaker = side; conversation_turn += 1] *)
Definition next_turn (side : Side) (s : Loop) : Loop :=
  {| current_speaker := side;
     last_left_content := last_left_content s;
     last_right_content := last_right_content s;
     conversation_turn := S (conversation_turn s);
     now := now s; ocr := ocr s; gui := gui s;
     shown := shown s; forwards := forwards s |}.

Definition check_interval : nat := 3.

Section WithWorld.
Variable win : Window.
Variable W : World.

(** The loop of [wait_for_new_message].  [fuel] bounds the number of
    polls; [None] means it ran out. *)
Fixpoint wait_loop (fuel : nat) (side : Side) (last_content : str)
    (start_time timeout : nat) (s : Loop) : option (option str * Loop) :=
  match fuel with
  | O => None
  | S fuel =>
      if is_running W (now s) && (now s - start_time <? timeout)%nat then
        match screen W side (now s) with
        | Some screenshot =>
            let '(current_content, p) := extract_text U (ocr s) screenshot in
            let s := with_ocr p s in
            if negb (is_empty current_content)
               && negb (bool_decide (current_content = last_content))
               && has_meaningful_change last_content current_content
            then Some (Some current_content, s)
            else wait_loop fuel side last_content start_time timeout
                   (with_time (now s + check_interval) s)
        | None =>
            wait_loop fuel side last_content start_time timeout
              (with_time (now s + check_interval) s)
        end
      else Some (None, s)
  end.

(** [wait_for_new_message(side, last_content, timeout)]: every poll moves
    the clock, so [S timeout] polls are enough and the last branch is
    never taken. *)
Definition wait_for_new_message (side : Side) (last_content : str)
    (timeout : nat) (s : Loop) : option str * Loop :=
  match wait_loop (S timeout) side last_content (now s) timeout s with
  | Some r => r
  | None => (None, s)
  end.

Definition region_of (side : Side) : Z * Z * Z * Z :=
  match side with Left => left_region win | Right => right_region win end.

(** [forward_message_to_side(target_side, message)] *)
Definition forward_message_to_side (target_side : Side) (message : str)
    (s : Loop) : bool * Loop :=
  let '(success, g) :=
    type_message U (gui_env W) (typer_config win) (region_of target_side)
                 message (gui s) in
  match success with
  | Some true =>
      (true, with_time (now s + 2) (with_forward target_side message true g s))
  | _ => (false, with_forward target_side message false g s)
  end.

Inductive Exit :=
| WhileDone          (* the condition of the [while] was false *)
| ReachedMaxTurns    (* the [break] after the check of the turn count *)
| ForwardFailed.     (* the [break] after a failed forward *)

Inductive Outcome :=
| Continue (s : Loop)
| Break (why : Exit) (s : Loop).

Definition check_max_turns (s : Loop) : Outcome :=
  if (max_turns win <=? conversation_turn s)%nat
  then Break ReachedMaxTurns s else Continue s.

(** One pass through the body of the [while] of [_bridge_loop]; the two
    branches of the source differ only in the side. *)
Definition loop_body (s : Loop) : Outcome :=
  let speaker := current_speaker s in
  let '(new_message, s) :=
    wait_for_new_message speaker (last_content speaker s) 60 s in
  match new_message with
  | Some ((_ :: _) as new_message) =>
      let s := with_last_content speaker new_message s in
      match extract_latest_reply new_message with
      | Some ((_ :: _) as latest_reply) =>
          let s :=
            add_conversation_message speaker (opposite speaker)
                                     latest_reply s in
          let '(ok, s) :=
            forward_message_to_side (opposite speaker) latest_reply s in
          if ok then check_max_turns (next_turn (opposite speaker) s)
          else Break ForwardFailed s
      | _ => check_max_turns s
      end
  | _ => check_max_turns s
  end.

Inductive Status := Running | Exited (why : Exit).

(** [_bridge_loop()] for at most [fuel] passes; [Running] means the loop
    has not ended within them. *)
Fixpoint bridge_from (fuel : nat) (s : Loop) : Status * Loop :=
  match fuel with
  | O => (Running, s)
  | S fuel =>
      if is_running W (now s)
         && (conversation_turn s <? max_turns win)%nat
      then match loop_body s with
           | Continue s => bridge_from fuel s
           | Break why s => (Exited why, s)
           end
      else (Exited WhileDone, s)
  end.

Definition start (p : Processor) (g : Gui) : Loop :=
  {| current_speaker := Left;
     last_left_content := [];
     last_right_content := [];
     conversation_turn := 0;
     now := 0; ocr := p; gui := g;
     shown := []; forwards := [] |}.

Definition _bridge_loop (fuel : nat) (p : Processor) (g : Gui)
    : Status * Loop :=
  bridge_from fuel (start p g).

End WithWorld.
End WithTables.

(** *** Vocabulary for the properties of the loop *)

(** The turns that were relayed: the forwards that succeeded. *)
Definition committed (s : Loop) : list (Side * str * bool) :=
  List.filter (λ entry, entry.2) (forwards s).

(** Who speaks after [k] relayed turns when the left side starts. *)
Definition speaker_after (k : nat) : Side :=
  if Nat.even k then Left else Right.

(** The state a pass ends in. *)
Definition outcome_state (o : Outcome) : Loop :=
  match o with
  | Continue s => s
  | Break _ s => s
  end.

(** What holds of the turn count, the speaker and the relayed turns
    between two passes. *)
Definition alternating (s : Loop) : Prop :=
  conversation_turn s = length (committed s)
  ∧ current_speaker s = speaker_after (conversation_turn s)
  ∧ ∀ k target message ok,
      committed s !! k = Some (target, message, ok) →
      target = opposite (speaker_after k).

(** A wait changes the clock and the OCR cache and nothing else. *)
Definition only_waited (s s' : Loop) : Prop :=
  current_speaker s' = current_speaker s
  ∧ last_left_content s' = last_left_content s
  ∧ last_right_content s' = last_right_content s
  ∧ conversation_turn s' = conversation_turn s
  ∧ gui s' = gui s
  ∧ shown s' = shown s
  ∧ forwards s' = forwards s
  ∧ (now s ≤ now s')%nat.

End MainWindow.

(** ** [ConfigManager]: nested dictionaries read and written by dotted
    keys

    A configuration value is a dictionary or something else (a number, a
    string, a boolean, a list, [None]); what else it is does not matter to
    the methods below, so it is a parameter.  A dictionary keeps the order
    in which its keys were first set.  Only the view through
    [self.config] is modelled, not the objects it may share with
    [self.default_config].  A value is held as a tree, without the
    identity of the dictionary objects, whereas [set] stores the object
    it is given: the facts proved on this view read back the key just
    written, or are about a [set] that writes nothing, or about
    [_merge_config], which writes into fresh copies only, and these do
    not depend on whether a dictionary object sits at two places.  What
    does depend on it is stated on [ConfigStore] below, which has the
    objects. *)

Module ConfigManager.
Import Py.

Section WithAtoms.
Variable atom : Type.

#[warnings="-register-all"]
Inductive value :=
| Dict (entries : list (str * value))
| Atom (a : atom).

(** [k in d], [d[k]] *)
Fixpoint dict_get (k : str) (d : list (str * value)) : option value :=
  match d with
  | [] => None
  | (k', v) :: r => if bool_decide (k = k') then Some v else dict_get k r
  end.

(** [d[k] = v] *)
Fixpoint dict_set (k : str) (v : value) (d : list (str * value))
    : list (str * value) :=
  match d with
  | [] => [(k, v)]
  | (k', v') :: r =>
      if bool_decide (k = k') then (k, v) :: r
      else (k', v') :: dict_set k v r
  end.

(** The loop of [get]: [None] where the source returns the default. *)
Fixpoint get_path (keys : list str) (value' : value) : option value :=
  match keys with
  | [] => Some value'
  | k :: rest =>
      match value' with
      | Dict d =>
          match dict_get k d with
          | Some v => get_path rest v
          | None => None
          end
      | Atom _ => None
      end
  end.

(** [get(key, default)] *)
Definition get (config : list (str * value)) (key : str) (default : value)
    : value :=
  match get_path (split_on 46 key) (Dict config) with
  | Some v => v
  | None => default
  end.

(** The body of [set] on the dictionary it has navigated to; [None] is a
    raised exception.  An exception can only come from a value on the way
    that is no dictionary (membership test, indexing or item assignment
    on it raises), and before that nothing has been written: a key is
    created only where it is missing, and below a created key everything
    is a fresh dictionary. *)
Fixpoint set_path (keys : list str) (v : value) (config : list (str * value))
    : option (list (str * value)) :=
  match keys with
  | [] => None
  | k :: rest =>
      match rest with
      | [] => Some (dict_set k v config)
      | _ :: _ =>
          match dict_get k config with
          | None =>
              match set_path rest v [] with
              | Some sub => Some (dict_set k (Dict sub) config)
              | None => None
              end
          | Some (Dict below) =>
              match set_path rest v below with
              | Some sub => Some (dict_set k (Dict sub) config)
              | None => None
              end
          | Some (Atom _) => None
          end
      end
  end.

(** [set(key, value)]: the exception is caught and the configuration
    stays as it was. *)
Definition set (config : list (str * value)) (key : str) (v : value)
    : list (str * value) :=
  match set_path (split_on 46 key) v config with
  | Some config' => config'
  | None => config
  end.

(** [_merge_config(default, user)], the user dictionary given as a
    value. *)
Fixpoint merge_value (default : list (str * value)) (user : value)
    {struct user} : list (str * value) :=
  match user with
  | Atom _ => default
  | Dict items =>
      (fix merge_items (result items : list (str * value)) {struct items}
         : list (str * value) :=
         match items with
         | [] => result
         | (key, v) :: rest =>
             let merged :=
               match dict_get key result, v with
               | Some (Dict below), Dict _ => Dict (merge_value below v)
               | _, _ => v
               end in
             merge_items (dict_set key merged result) rest
         end) default items
  end.

Definition _merge_config (default user : list (str * value))
    : list (str * value) :=
  merge_value default (Dict user).

(** What [_merge_config] stores under a key of the user dictionary. *)
Definition merged_entry (result : list (str * value)) (key : str)
    (v : value) : value :=
  match dict_get key result, v with
  | Some (Dict below), Dict items => Dict (_merge_config below items)
  | _, _ => v
  end.

(** [proper] is a beginning of [keys] that leaves something over. *)
Definition proper_prefix (proper keys : list str) : Prop :=
  ∃ rest, rest ≠ [] ∧ keys = proper ++ rest.

End WithAtoms.

Arguments Dict {atom} entries.
Arguments Atom {atom} a.

End ConfigManager.

(** ** [ConfigManager] with the dictionary objects

    [set] stores the object it is given and writes into the objects it
    finds, so two keys can come to hold the same dictionary, and a write
    through one is seen through the other.  Here a dictionary is an
    object in a heap and is held by its address. *)

Module ConfigStore.
Import Py.

Section WithAtoms.
Variable atom : Type.

(** A value is something that is no dictionary, or the address of a
    dictionary object. *)
Inductive value :=
| Atom (a : atom)
| Ref (address : nat).

(** A dictionary object holds its items in the order in which the keys
    were first set; the heap holds the objects by address, and a new
    object gets the next address. *)
Local Abbreviation object := (list (str * value)).
Local Abbreviation heap := (list (list (str * value))).

(** [k in d], [d[k]] *)
Fixpoint dict_get (k : str) (d : object) : option value :=
  match d with
  | [] => None
  | (k', v) :: r => if bool_decide (k = k') then Some v else dict_get k r
  end.

(** [d[k] = v] *)
Fixpoint dict_set (k : str) (v : value) (d : object) : object :=
  match d with
  | [] => [(k, v)]
  | (k', v') :: r =>
      if bool_decide (k = k') then (k, v) :: r
      else (k', v') :: dict_set k v r
  end.

(** [d[k] = v] on the dictionary object at an address. *)
Definition write (l : nat) (k : str) (v : value) (h : heap) : heap :=
  match h !! l with
  | Some d => <[l := dict_set k v d]> h
  | None => h
  end.

(** The loop of [get]: [None] where the source returns the default. *)
Fixpoint get_path (h : heap) (keys : list str) (value' : value)
    : option value :=
  match keys with
  | [] => Some value'
  | k :: rest =>
      match value' with
      | Ref l =>
          match h !! l with
          | Some d =>
              match dict_get k d with
              | Some v => get_path h rest v
              | None => None
              end
          | None => None
          end
      | Atom _ => None
      end
  end.

(** [get(key, default)], with [self.config] at the address [config]. *)
Definition get (h : heap) (config : nat) (key : str) (default : value)
    : value :=
  match get_path h (split_on 46 key) (Ref config) with
  | Some v => v
  | None => default
  end.

(** The body of [set]: [for k in keys[:-1]] and the assignment under
    the last key.  A value on the way that is no dictionary makes the
    membership test, the indexing or the item assignment raise; nothing
    has been written by then, since a key is created only where it is
    missing and below a created key everything is a new dictionary.  An
    address without an object is not met in a heap made by the
    program. *)
Fixpoint set_path (h : heap) (config : nat) (keys : list str) (v : value)
    : heap :=
  match keys with
  | [] => h
  | k :: rest =>
      match rest with
      | [] => write config k v h
      | _ :: _ =>
          match h !! config with
          | None => h
          | Some d =>
              match dict_get k d with
              | None =>
                  let fresh := length h in
                  set_path (write config k (Ref fresh) (h ++ [[]]))
                           fresh rest v
              | Some (Ref below) => set_path h below rest v
              | Some (Atom _) => h
              end
          end
      end
  end.

(** [set(key, value)] *)
Definition set (h : heap) (config : nat) (key : str) (v : value) : heap :=
  set_path h config (split_on 46 key) v.

(** Every address held in a dictionary is the address of a dictionary. *)
Definition closed (h : heap) : Prop :=
  ∀ l d k l', h !! l = Some d → dict_get k d = Some (Ref l') →
              (l' < length h)%nat.

(** No dictionary is reached from [config] along two paths. *)
Definition unshared (h : heap) (config : nat) : Prop :=
  ∀ p1 p2 l, get_path h p1 (Ref config) = Some (Ref l) →
             get_path h p2 (Ref config) = Some (Ref l) → p1 = p2.

End WithAtoms.

Arguments Atom {atom} a.
Arguments Ref {atom} address.

End ConfigStore.

(** ** [ScreenCapture]: the check of a region against the screen *)

Module ScreenCapture.

(** [get_screen_size()]: [pyautogui.size()], or 1920 x 1080 when that call
    raises ([None]). *)
Definition get_screen_size (size : option (Z * Z)) : Z * Z :=
  match size with
  | Some wh => wh
  | None => (1920, 1080)%Z
  end.

(** [validate_region(region)] *)
Definition validate_region (size : option (Z * Z)) (region : Z * Z * Z * Z)
    : bool :=
  let '(x, y, width, height) := region in
  let '(screen_width, screen_height) := get_screen_size size in
  if ((x <? 0) || (y <? 0))%Z then false
  else if ((screen_width <? x + width) || (screen_height <? y + height))%Z
  then false
  else if ((width <=? 0) || (height <=? 0))%Z then false
  else if ((width <? 10) || (height <? 10))%Z then false
  else true.

End ScreenCapture.

(** ** [RegionSelectorWindow]: the region a drag selects *)

Module RegionSelectorWindow.

(** [on_mouse_up(event)] of [gui/region_selector_window.py]: the value of
    [selected_region] afterwards, given where the button went down (if it
    did) and the selection held before. *)
Definition on_mouse_up (start_x start_y : option Z) (event : Z * Z)
    (selected_region : option (Z * Z * Z * Z)) : option (Z * Z * Z * Z) :=
  match start_x, start_y with
  | Some x1, Some y1 =>
      let '(x2, y2) := event in
      let x := Z.min x1 x2 in
      let y := Z.min y1 y2 in
      let width := Z.abs (x2 - x1) in
      let height := Z.abs (y2 - y1) in
      if ((50 <? width) && (50 <? height))%Z
      then Some (x, y, width, height)
      else selected_region
  | _, _ => selected_region
  end.

End RegionSelectorWindow.

(** ** Scenarios used as examples *)

Module Scenarios.
Import Py AutoTyper OCRProcessor MainWindow.

(** A capture on which EasyOCR reads one span with confidence 0.95. *)
Definition sees (key : N) (text : string) : Reading :=
  {| png_md5 := Some [key]; timestamp := [];
     readtext := Some [ {| span_text := lit text; confidence := 0.95 |} ];
     image_to_string := None;
     image_to_data_text := []; image_to_data_conf := None |}.

Definition hello : string := "Hello, how can I help you today friend".

Definition window : Window :=
  {| left_region := (0, 0, 400, 300)%Z;
     right_region := (500, 0, 400, 300)%Z;
     max_turns := 50;
     typer_config := default_config |}.

Definition processor : Processor := init 60 true false.

(** The left side is blank for the first 60 seconds and shows a greeting
    from then on; the right side is never captured; the bridge is never
    stopped and no call raises. *)
Definition late_greeting : World :=
  {| is_running := λ _, true;
     screen := λ side t,
       match side with
       | Left => if (t <? 60)%nat then Some (sees 0 "") else Some (sees 1 hello)
       | Right => None
       end;
     gui_env := calm |}.

(** The left side is blank for two polls and shows the greeting from the
    third poll on. *)
Definition greeting_at_third_poll : World :=
  {| is_running := λ _, true;
     screen := λ side t,
       match side with
       | Left => if (t <? 6)%nat then Some (sees 0 "") else Some (sees 1 hello)
       | Right => None
       end;
     gui_env := calm |}.

(** Both sides show the same greeting all the time. *)
Definition echo : World :=
  {| is_running := λ _, true;
     screen := λ _ _, Some (sees 1 hello);
     gui_env := calm |}.

(** A small configuration: a section with two settings and a top-level
    setting. *)
Definition sample_config : list (str * ConfigManager.value Z) :=
  [ (lit "ocr",
     ConfigManager.Dict
       [ (lit "engine", ConfigManager.Atom 1%Z);
         (lit "confidence_threshold", ConfigManager.Atom 60%Z) ]);
    (lit "ui", ConfigManager.Atom 2%Z) ].

(** The sample configuration as objects: the root dictionary at address
    0, its section "ocr" at address 1. *)
Definition sample_heap : list (list (str * ConfigStore.value Z)) :=
  [ [ (lit "ocr", ConfigStore.Ref 1%nat); (lit "ui", ConfigStore.Atom 2%Z) ];
    [ (lit "engine", ConfigStore.Atom 1%Z);
      (lit "confidence_threshold", ConfigStore.Atom 60%Z) ] ].

(** After [set('backup', get('ocr'))] the section is held twice. *)
Definition aliased_heap : list (list (str * ConfigStore.value Z)) :=
  ConfigStore.set Z sample_heap 0 (lit "backup")
    (ConfigStore.get Z sample_heap 0 (lit "ocr") (ConfigStore.Atom 0%Z)).

End Scenarios.

(** * Properties *)

Import Py AutoTyper OCRProcessor ConversationManager MainWindow.

(** ** Facts about the string operations *)

Section TextFacts.
Variable U : UnicodeTables.

Lemma lstrip_blank (s : str) :
  forallb (isspace U) s = true → lstrip U s = [].
Proof.
  induction s as [|c r IH]; simpl; [done|].
  intros [Hc Hr]%andb_prop. rewrite Hc. auto.
Qed.

Lemma strip_blank (s : str) :
  forallb (isspace U) s = true → strip U s = [].
Proof.
  intros H. unfold strip. by rewrite (lstrip_blank _ H).
Qed.

Lemma lstrip_nil_blank (s : str) :
  lstrip U s = [] → forallb (isspace U) s = true.
Proof.
  induction s as [|c r IH]; simpl; [done|].
  destruct (isspace U c); [auto | discriminate].
Qed.

Lemma forallb_rev {A} (f : A → bool) (l : list A) :
  forallb f (rev l) = forallb f l.
Proof.
  induction l as [|a l IH]; simpl; [done|].
  rewrite forallb_app, IH. simpl. rewrite andb_true_r. apply andb_comm.
Qed.

Lemma lstrip_suffix (s : str) : ∃ pre, s = pre ++ lstrip U s
  ∧ forallb (isspace U) pre = true.
Proof.
  induction s as [|c r [pre [E B]]]; simpl.
  - by exists [].
  - destruct (isspace U c) eqn:Hc.
    + exists (c :: pre). simpl. rewrite Hc, B. by rewrite <- E.
    + by exists [].
Qed.

(** A string strips to nothing exactly when it is all white space. *)
Lemma strip_nil_blank (s : str) :
  strip U s = [] → forallb (isspace U) s = true.
Proof.
  unfold strip, rstrip. intros H.
  destruct (lstrip_suffix s) as [pre [E B]].
  assert (H' : lstrip U (rev (lstrip U s)) = []).
  { apply (f_equal (@rev N)) in H. by rewrite rev_involutive in H. }
  apply lstrip_nil_blank in H'. rewrite forallb_rev in H'.
  rewrite E, forallb_app, B. exact H'.
Qed.

End TextFacts.

(** ** The examples of the specification, run on the embedding *)

Example change_too_short :
  has_meaningful_change plain_tables (lit "") (lit "hi") = false.
Proof. reflexivity. Qed.

Example change_first_reply :
  has_meaningful_change plain_tables (lit "")
    (lit "This is a real reply line") = true.
Proof. reflexivity. Qed.

Example change_new_line :
  has_meaningful_change plain_tables (lit "A" ++ [NL] ++ lit "B")
    (lit "A" ++ [NL] ++ lit "B" ++ [NL] ++ lit "C is a longer new line")
  = true.
Proof. vm_compute. reflexivity. Qed.

Example reply_of_greeting :
  extract_latest_reply plain_tables (lit Scenarios.hello)
  = Some (lit Scenarios.hello).
Proof. vm_compute. reflexivity. Qed.

(** Two longest lines, in the order they had in the text. *)
Example reply_two_longest :
  extract_latest_reply plain_tables
    (lit "We can meet on the bridge" ++ [NL] ++ lit "ok" ++ [NL]
     ++ lit "Bring the big red umbrella along" ++ [NL]
     ++ lit "It looks like rain")
  = Some (lit "We can meet on the bridge" ++ [NL]
          ++ lit "Bring the big red umbrella along").
Proof. vm_compute. reflexivity. Qed.

Example end_to_end :
  let final := (_bridge_loop plain_tables Scenarios.window
                  Scenarios.greeting_at_third_poll 1 Scenarios.processor
                  fresh_gui).2 in
  conversation_turn final = 1%nat
  ∧ current_speaker final = Right
  ∧ forwards final = [(Right, lit Scenarios.hello, true)].
Proof. repeat split; vm_compute; reflexivity. Qed.

(** ** Change detection *)

(** C7: change detection answers [False] when the new observation is the
    old one, whatever the text. *)
Theorem has_meaningful_change_same (U : UnicodeTables) (x : str) :
  has_meaningful_change U x x = false.
Proof.
  destruct x as [|c r]; [reflexivity|].
  unfold has_meaningful_change.
  rewrite difference_diag_L, elements_empty. reflexivity.
Qed.

(** ** Delivery *)

Section TyperFacts.
Variable U : UnicodeTables.
Variable E : Env.

(** C9: a message that is empty or all white space makes [type_message]
    return [False] with the state as it was: no click, no key, no clipboard
    call and no random draw has happened. *)
Theorem type_message_blank (cfg : Config) (region : Z * Z * Z * Z)
    (message : str) (g : Gui) :
  forallb (isspace U) message = true →
  type_message U E cfg region message g = (Some false, g).
Proof.
  intros Hblank. unfold type_message, try_except.
  rewrite (strip_blank _ _ Hblank). simpl.
  rewrite orb_true_r. reflexivity.
Qed.

End TyperFacts.

Lemma type_message_blank_witness :
  forallb (isspace plain_tables) (lit "   ") = true
  ∧ type_message plain_tables calm default_config (0, 0, 400, 300)%Z
      (lit "   ") fresh_gui = (Some false, fresh_gui).
Proof.
  split; [reflexivity|].
  apply (type_message_blank plain_tables calm). reflexivity.
Defined.

(** *** What a delivery sends when no call raises *)

Section QuietEnv.
Variable U : UnicodeTables.
Variable E : Env.
Hypothesis quiet : ∀ n, raises E n = false.

Lemma do_call_quiet (c : call) (g : Gui) :
  do_call E c g = (Some (), effect c (record_call c g)).
Proof. unfold do_call. by rewrite quiet. Qed.







End QuietEnv.


(** *** What a delivery sends, whichever calls raise *)

Section DeliveryFacts.
Variable U : UnicodeTables.
Variable E : Env.









End DeliveryFacts.




(** A delivery that returns [True] although putting the former clipboard
    back raised: the calls are those of the bulk mode, and the clipboard
    is left holding the message. *)
Example delivered_despite_failed_restore :
  let g := {| calls := []; clipboard := lit "kept"; draws := 0 |} in
  let result := type_message plain_tables restore_fails default_config
                  (0, 0, 400, 300)%Z long_reply g in
  result.1 = Some true
  ∧ calls result.2
    = focus_calls restore_fails (0, 0, 400, 300)%Z 0
      ++ bulk_calls (lit "kept") long_reply ++ [Press "enter"]
  ∧ clipboard result.2 = long_reply.
Proof. repeat split; vm_compute; reflexivity. Qed.

(** *** The cleaning of a message *)

Section CleanFacts.
Variable U : UnicodeTables.

Lemma isspace_SP : isspace U SP = true.
Proof. reflexivity. Qed.

Lemma collapse_ws_go_spaces (b : bool) (s : str) :
  Forall (λ c, isspace U c = true → c = SP) (collapse_ws_go U b s).
Proof.
  revert b. induction s as [|c r IH]; intros b; simpl; [constructor|].
  destruct (isspace U c) eqn:Hc.
  - destruct b; [apply IH|]. constructor; [done | apply IH].
  - constructor; [congruence | apply IH].
Qed.



Lemma Forall_lstrip (P : N → Prop) (s : str) :
  Forall P s → Forall P (lstrip U s).
Proof.
  induction 1 as [|c r Hc Hr IH]; simpl; [constructor|].
  destruct (isspace U c); [exact IH | by constructor].
Qed.

Lemma Forall_strip (P : N → Prop) (s : str) :
  Forall P s → Forall P (strip U s).
Proof.
  intros H. unfold strip, rstrip.
  apply List.Forall_rev, Forall_lstrip, List.Forall_rev, Forall_lstrip, H.
Qed.

Lemma length_lstrip (s : str) : (length (lstrip U s) ≤ length s)%nat.
Proof.
  induction s as [|c r IH]; simpl; [lia|].
  destruct (isspace U c); simpl; lia.
Qed.


Lemma Forall_filter_in {A} (P : A → Prop) (f : A → bool) (l : list A) :
  Forall P l → Forall P (List.filter f l).
Proof.
  induction 1 as [|a l Ha Hl IH]; simpl; [constructor|].
  destruct (f a); [by constructor | exact IH].
Qed.

Lemma Forall_filter_true {A} (f : A → bool) (l : list A) :
  Forall (λ a, f a = true) (List.filter f l).
Proof.
  induction l as [|a l IH]; simpl; [constructor|].
  destruct (f a) eqn:Ha; [by constructor | exact IH].
Qed.

(** The message before it is stripped: collapsed, freed of control
    characters and cut. *)
Lemma clean_message_parts (cfg : Config) (message : str) :
  (0 ≤ max_message_length cfg)%Z →
  let kept :=
    List.filter (λ c, negb (is_control c)) (collapse_ws U message) in
  _clean_message U cfg message =
  strip U (if (max_message_length cfg <? len kept)%Z
           then List.firstn (Z.to_nat (max_message_length cfg)) kept
                ++ lit "..."
           else kept).
Proof.
  intros Hmax kept. unfold _clean_message, slice_to.
  fold kept. by rewrite (proj2 (Z.leb_le _ _) Hmax).
Qed.

Lemma clean_message_chars (cfg : Config) (message : str) :
  (0 ≤ max_message_length cfg)%Z →
  Forall (λ c, is_control c = false ∧ (isspace U c = true → c = SP))
         (_clean_message U cfg message).
Proof.
  intros Hmax. rewrite clean_message_parts by done. cbv zeta.
  apply Forall_strip.
  assert (Hkept : Forall
            (λ c, is_control c = false ∧ (isspace U c = true → c = SP))
            (List.filter (λ c, negb (is_control c)) (collapse_ws U message))).
  { apply Forall_and; split.
    - eapply Forall_impl; [apply Forall_filter_true|].
      simpl. intros c Hc. by apply negb_true_iff.
    - apply Forall_filter_in, collapse_ws_go_spaces. }
  destruct (_ <? _)%Z; [|exact Hkept].
  apply Forall_app; split.
  - by apply Forall_take.
  - repeat constructor; discriminate.
Qed.


End CleanFacts.



(** ** Text extraction *)

Section ExtractFacts.
Variable U : UnicodeTables.




End ExtractFacts.

(** The ratio at the default threshold is the double 0.6, and a span
    whose confidence is that double is kept, although it is below 3/5. *)
Example threshold_ratio_default :
  threshold_ratio (init 60 true false)
  = Some (5404319552844595 # 9007199254740992)
  ∧ (5404319552844595 # 9007199254740992 < 3 # 5)%Q
  ∧ _extract_with_easyocr (init 60 true false) borderline = lit "kept".
Proof. repeat split; vm_compute; reflexivity. Qed.



Section EmptyTextFacts.
Variable U : UnicodeTables.

Lemma collapse_ws_go_blank (b : bool) (s : str) :
  forallb (isspace U) s = true →
  forallb (isspace U) (collapse_ws_go U b s) = true.
Proof.
  revert b. induction s as [|c r IH]; intros b; simpl; [done|].
  intros [Hc Hr]%andb_prop. rewrite Hc.
  destruct b; simpl; rewrite ?isspace_SP; simpl; auto.
Qed.

Lemma forallb_filter_in {A} (f g : A → bool) (l : list A) :
  forallb f l = true → forallb f (List.filter g l) = true.
Proof.
  induction l as [|a l IH]; simpl; [done|].
  intros [Ha Hl]%andb_prop. destruct (g a); simpl; rewrite ?Ha; auto.
Qed.

(** Text that strips to nothing is post-processed to the empty text. *)
Lemma post_process_blank (text : str) :
  strip U text = [] → _post_process_text U text = [].
Proof.
  intros H. destruct text as [|c r]; [reflexivity|].
  unfold _post_process_text. apply strip_blank, forallb_filter_in.
  apply collapse_ws_go_blank, strip_nil_blank, H.
Qed.

Lemma easyocr_raised (p : Processor) (r : Reading) :
  readtext r = None → _extract_with_easyocr p r = [].
Proof. unfold _extract_with_easyocr. by intros ->. Qed.

Lemma tesseract_raised (p : Processor) (r : Reading) :
  image_to_string r = None ∨ image_to_data_conf r = None →
  _extract_with_tesseract U p r = [].
Proof.
  unfold _extract_with_tesseract. intros [->| ->]; [done|].
  by destruct (image_to_string r).
Qed.

(** When every engine that is there fails, the engines give no text. *)
Lemma engines_text_blank (p : Processor) (r : Reading) :
  engines_fail U p r → strip U (engines_text U p r) = [].
Proof.
  intros [Heasy Htess]. unfold engines_text.
  assert (Ht : tesseract_available p = true →
               _extract_with_tesseract U p r = []).
  { intros Hav. destruct (Htess Hav) as [H|[H|H]]; [| |exact H];
      apply tesseract_raised; auto. }
  destruct (easyocr_reader p) eqn:He.
  - assert (Hs : strip U (_extract_with_easyocr p r) = []).
    { destruct (Heasy eq_refl) as [H|H]; [|exact H].
      by rewrite (easyocr_raised _ _ H). }
    rewrite Hs. simpl. rewrite andb_false_r.
    destruct (tesseract_available p); [|exact Hs].
    by rewrite Ht.
  - destruct (tesseract_available p); [|reflexivity].
    by rewrite Ht.
Qed.

Lemma cache_get_Forall (P : str → Prop) (k : str) (d : list (str * str))
    (v : str) :
  Forall (λ entry, P entry.2) d → cache_get k d = Some v → P v.
Proof.
  induction 1 as [|[k' v'] d Hkv Hd IH]; simpl; [done|].
  destruct (bool_decide (k = k')); [|exact IH].
  by intros [= <-].
Qed.

Lemma cache_set_Forall (P : str → Prop) (k v : str) (d : list (str * str)) :
  P v → Forall (λ entry, P entry.2) d →
  Forall (λ entry, P entry.2) (cache_set k v d).
Proof.
  intros Hv. induction 1 as [|[k' v'] d Hkv Hd IH]; simpl.
  - by repeat constructor.
  - destruct (bool_decide (k = k')); by constructor.
Qed.

Lemma no_engine_extract (p : Processor) (r : Reading) :
  no_engine_state p →
  (extract_text U p r).1 = [] ∧ no_engine_state (extract_text U p r).2.
Proof.
  intros (He & Ht & Hc). unfold extract_text.
  destruct (cache_get _ _) as [cached|] eqn:Hget; simpl.
  - split; [|done]. exact (cache_get_Forall (λ v, v = []) _ _ _ Hc Hget).
  - unfold engines_text. rewrite He, Ht. simpl.
    split; [reflexivity|]. unfold _cache_text.
    destruct (_ <=? _)%nat.
    + destruct (text_cache p) as [|entry rest] eqn:Hcache.
      * repeat split; [done..|]. by rewrite Hcache.
      * repeat split; [done..|]. simpl.
        apply (cache_set_Forall (λ v, v = [])); [reflexivity|].
        by inversion Hc.
    + repeat split; [done..|]. simpl.
      by apply (cache_set_Forall (λ v, v = [])).
Qed.

Lemma no_engine_run (p : Processor) (rs : list Reading) :
  no_engine_state p →
  no_engine_state (fold_left (λ q r, (extract_text U q r).2) rs p).
Proof.
  revert p. induction rs as [|r rs IH]; intros p Hp; simpl; [done|].
  apply IH, no_engine_extract, Hp.
Qed.

End EmptyTextFacts.

(** C6: when the image is not in the cache and every engine that is there
    fails on it (its call raises, or what it returns holds no text),
    [extract_text] returns the empty text; the function has a result in
    every case, the raised exceptions being caught.  When no engine is
    there at all, every call returns the empty text, cached or not.  A
    poll that gets the empty text returns nothing: the waiting loop sleeps
    and polls again. *)
Theorem extract_text_engines_fail (U : UnicodeTables) (p : Processor)
    (r : Reading) :
  cache_get (_get_image_hash r) (text_cache p) = None →
  engines_fail U p r →
  (extract_text U p r).1 = []
  ∧ (∀ threshold rs r',
       (extract_text U
          (fold_left (λ q r, (extract_text U q r).2) rs
                     (init threshold false false)) r').1 = [])
  ∧ (∀ W fuel side last_content start_time timeout s,
       ocr s = p →
       is_running W (now s) = true →
       (now s - start_time < timeout)%nat →
       screen W side (now s) = Some r →
       wait_loop U W (S fuel) side last_content start_time timeout s
       = wait_loop U W fuel side last_content start_time timeout
           (with_time (now s + check_interval)
              (with_ocr (extract_text U p r).2 s))).
Proof.
  intros Hmiss Hfail.
  assert (Hempty : (extract_text U p r).1 = []).
  { unfold extract_text. rewrite Hmiss. simpl.
    apply post_process_blank, engines_text_blank, Hfail. }
  split; [exact Hempty|]. split.
  - intros threshold rs r'. apply no_engine_extract, no_engine_run.
    repeat split. constructor.
  - intros W fuel side last_content start_time timeout s Hp Hrun Htime Hscr.
    simpl. rewrite Hrun, Hscr, Hp.
    rewrite (proj2 (Nat.ltb_lt _ _) Htime). simpl.
    destruct (extract_text U p r) as [content q]. simpl in Hempty.
    subst content. reflexivity.
Qed.

Lemma extract_text_engines_fail_witness :
  (extract_text plain_tables (init 60 true false)
     {| png_md5 := Some (lit "9f2c"); timestamp := lit "1718600000.0";
        readtext := None; image_to_string := None;
        image_to_data_text := []; image_to_data_conf := None |}).1 = [].
Proof.
  refine (proj1 (extract_text_engines_fail plain_tables (init 60 true false)
                   _ _ _)).
  - reflexivity.
  - split; [intros _; left; reflexivity | discriminate].
Defined.

(** ** Reply extraction *)

Section SubstringFacts.

Lemma prefix_b_app (p s : str) : prefix_b p (p ++ s) = true.
Proof.
  induction p as [|a p IH]; simpl; [done|].
  by rewrite N.eqb_refl, IH.
Qed.

(** A string contains each of its substrings. *)
Lemma contains_app (needle pre post : str) :
  contains needle (pre ++ needle ++ post) = true.
Proof.
  induction pre as [|a pre IH]; simpl.
  - destruct needle as [|b needle]; simpl.
    + by destruct post.
    + by rewrite N.eqb_refl, prefix_b_app.
  - rewrite IH. apply orb_true_r.
Qed.

Lemma prefix_b_split (p s : str) :
  prefix_b p s = true → ∃ post, s = p ++ post.
Proof.
  revert s. induction p as [|a p IH]; intros s; simpl.
  - by exists s.
  - destruct s as [|b s]; [discriminate|].
    intros [Hab Hp]%andb_prop. apply N.eqb_eq in Hab as ->.
    destruct (IH _ Hp) as [post ->]. by exists post.
Qed.

Lemma contains_split (needle hay : str) :
  contains needle hay = true → ∃ pre post, hay = pre ++ needle ++ post.
Proof.
  induction hay as [|a hay IH]; simpl.
  - rewrite orb_false_r. intros [post ->]%prefix_b_split. by exists [], post.
  - intros [H|H]%orb_prop.
    + apply prefix_b_split in H as [post ->]. by exists [], post.
    + destruct (IH H) as (pre & post & ->). by exists (a :: pre), post.
Qed.

Lemma split_on_clean (sep : N) (s : str) :
  Forall (Forall (λ c, c ≠ sep)) (split_on sep s).
Proof.
  induction s as [|c r IH]; simpl; [by repeat constructor|].
  destruct (N.eqb_spec c sep) as [->|Hne].
  - by constructor.
  - destruct (split_on sep r) as [|p ps]; [by repeat constructor|].
    inversion IH; subst. constructor; [by constructor | done].
Qed.

Lemma split_on_none (sep : N) (s : str) :
  Forall (λ c, c ≠ sep) s → split_on sep s = [s].
Proof.
  induction 1 as [|c r Hc Hr IH]; simpl; [done|].
  destruct (N.eqb_spec c sep); [done|]. by rewrite IH.
Qed.

Lemma split_on_app (sep : N) (p rest : str) :
  Forall (λ c, c ≠ sep) p →
  split_on sep (p ++ sep :: rest) = p :: split_on sep rest.
Proof.
  induction 1 as [|c r Hc Hr IH]; simpl.
  - by rewrite N.eqb_refl.
  - destruct (N.eqb_spec c sep); [done|]. by rewrite IH.
Qed.

(** Splitting a join gives the pieces back, when no piece holds the
    separator. *)
Lemma split_on_join (sep : N) (ls : list str) :
  ls ≠ [] → Forall (Forall (λ c, c ≠ sep)) ls →
  split_on sep (join [sep] ls) = ls.
Proof.
  intros Hne H. induction H as [|p ls Hp Hls IH]; [done|].
  destruct ls as [|q ls].
  - simpl. by apply split_on_none.
  - change (join [sep] (p :: q :: ls)) with (p ++ sep :: join [sep] (q :: ls)).
    rewrite split_on_app by done. by rewrite IH.
Qed.

Lemma insert_by_len_In (x y : str) (l : list str) :
  In x (insert_by_len y l) ↔ x = y ∨ In x l.
Proof.
  induction l as [|z l IH]; simpl.
  - split; [intros [->|[]]; by left | intros [->|[]]; by left].
  - destruct (_ <=? _)%nat; simpl.
    + split; [intros [->|H]; [by left | by right] |
              intros [->|H]; [by left | by right]].
    + rewrite IH. tauto.
Qed.

(** Sorting keeps the lines it was given, no more and no fewer. *)
Lemma sort_by_len_desc_In (x : str) (l : list str) :
  In x (sort_by_len_desc l) ↔ In x l.
Proof.
  induction l as [|y l IH]; simpl; [done|].
  rewrite insert_by_len_In, IH.
  split; (intros [->|H]; [by left | by right]).
Qed.

End SubstringFacts.

Section ReplyFacts.
Variable U : UnicodeTables.

Lemma lower_from_app (pre before rest : str) :
  ∃ front,
    lower_from U before (pre ++ rest)
    = front ++ lower_from U (before ++ pre) rest.
Proof.
  revert before. induction pre as [|c pre IH]; intros before.
  - exists []. by rewrite app_nil_r.
  - destruct (IH (before ++ [c])) as [front Hfront].
    eexists. simpl. rewrite Hfront, <- (app_assoc before [c] pre).
    rewrite app_assoc. reflexivity.
Qed.

(** No keyword has an ASCII capital. *)
Lemma keywords_lowercase :
  forallb (forallb (λ c, negb (is_ascii c && between 65 90 c)))
          filter_keywords = true.
Proof. vm_compute. reflexivity. Qed.

Lemma capital_lowers (a b : N) :
  between 97 122 b = true → b = a + 32 →
  is_ascii a = true ∧ between 65 90 a = true.
Proof.
  unfold between, is_ascii.
  intros [H1 H2]%andb_prop ->.
  apply N.leb_le in H1, H2.
  split; [apply N.ltb_lt; lia|].
  apply andb_true_intro; split; apply N.leb_le; lia.
Qed.

(** Lower-casing a variant of a keyword gives the keyword, wherever the
    variant stands. *)
Lemma lower_from_variant (token keyword before post : str) :
  case_variant token keyword →
  (∀ c, In c keyword →
        (is_ascii c = true → between 65 90 c = false)
        ∧ (is_ascii c = false → ∀ b a, uni_lower U b c a = [c])) →
  lower_from U before (token ++ post)
  = keyword ++ lower_from U (before ++ token) post.
Proof.
  intros Hvar. revert before.
  induction Hvar as [|a b token keyword Hab Hrest IH]; intros before Hkw.
  - by rewrite app_nil_r.
  - simpl. rewrite IH by (intros c Hc; apply Hkw; by right).
    rewrite <- (app_assoc before [a] token). simpl.
    destruct Hab as [->|[Hsmall Hb]].
    + destruct (Hkw b (or_introl eq_refl)) as [Hascii Hother].
      destruct (is_ascii b).
      * by rewrite (Hascii eq_refl).
      * by rewrite (Hother eq_refl).
    + destruct (capital_lowers a b Hsmall Hb) as [-> ->].
      by rewrite Hb.
Qed.

Lemma keyword_chars (keyword : str) (c : N) :
  tables_keep_keywords U →
  In keyword filter_keywords → In c keyword →
  (is_ascii c = true → between 65 90 c = false)
  ∧ (is_ascii c = false → ∀ b a, uni_lower U b c a = [c]).
Proof.
  intros Htab Hkw Hc. split.
  - intros Hascii.
    pose proof keywords_lowercase as H.
    rewrite forallb_forall in H. specialize (H _ Hkw).
    rewrite forallb_forall in H. specialize (H _ Hc).
    rewrite Hascii in H. simpl in H. by apply negb_true_iff in H.
  - intros Hascii b a. by apply (Htab keyword).
Qed.

(** A line that holds a keyword in any letter case is recognised. *)
Lemma variant_found (line keyword token : str) :
  tables_keep_keywords U →
  In keyword filter_keywords →
  case_variant token keyword →
  contains token line = true →
  has_filter_keyword U line = true.
Proof.
  intros Htab Hkw Hvar Hin.
  apply contains_split in Hin as (pre & post & ->).
  unfold has_filter_keyword. apply existsb_exists.
  exists keyword. split; [exact Hkw|].
  unfold lower.
  destruct (lower_from_app pre [] (token ++ post)) as [front ->].
  rewrite (lower_from_variant token keyword _ post Hvar).
  - apply contains_app.
  - intros c Hc. by apply (keyword_chars keyword).
Qed.

Lemma stripped_lines_clean (content : str) :
  Forall (Forall (λ c, c ≠ NL)) (stripped_lines U content).
Proof.
  unfold stripped_lines. apply Forall_filter_in.
  apply List.Forall_forall. intros l [piece [<- Hpiece]]%in_map_iff.
  apply Forall_strip.
  pose proof (split_on_clean NL content) as H.
  rewrite List.Forall_forall in H. by apply H.
Qed.

Lemma In_not_nil {A} (x : A) (l : list A) : In x l → l ≠ [].
Proof. by destruct l. Qed.

Lemma str_in_In (x : str) (l : list str) : str_in x l = true → In x l.
Proof.
  unfold str_in. intros [y [Hy Heq]]%existsb_exists.
  apply bool_decide_eq_true in Heq. by subst.
Qed.

(** A reply is the join of lines that passed the five tests. *)
Lemma extract_latest_reply_lines (content reply : str) :
  extract_latest_reply U content = Some reply →
  ∃ ls, ls ≠ [] ∧ reply = join [NL] ls
        ∧ Forall (λ l, In l (filtered_lines U content)) ls.
Proof.
  unfold extract_latest_reply, filtered_lines.
  destruct content as [|c0 content0]; [discriminate|].
  destruct (stripped_lines U (c0 :: content0)) as [|l0 lines0];
    [discriminate|].
  remember (l0 :: lines0) as lines eqn:Hlines. clear Hlines.
  destruct (sort_by_len_desc (List.filter (keeps_line U) lines))
    as [|first [|second rest]] eqn:Hsort; [discriminate| |].
  - intros [= <-]. exists [first]. split; [done|]. split; [done|].
    constructor; [|constructor].
    apply sort_by_len_desc_In. rewrite Hsort. by left.
  - intros [= <-].
    assert (Hsel : ∀ l, str_in l [first; second] = true →
                        In l (List.filter (keeps_line U) lines)).
    { intros l Hl%str_in_In. apply sort_by_len_desc_In. rewrite Hsort.
      destruct Hl as [<-|[<-|[]]]; [by left | by right; left]. }
    eexists. split; [|split; [reflexivity|]].
    + apply (In_not_nil first), filter_In. split.
      * assert (H : In first (List.filter (keeps_line U) lines)).
        { apply sort_by_len_desc_In. rewrite Hsort. by left. }
        by apply filter_In in H as [H _].
      * unfold str_in. simpl. by rewrite bool_decide_eq_true_2.
    + apply List.Forall_forall. intros l [_ Hl]%filter_In. by apply Hsel.
Qed.

End ReplyFacts.

(** C8: a line that holds a keyword of the denylist, written in any mix
    of small and capital letters, does not pass the tests of the
    extraction: it is not among the filtered lines and it is no line of
    the reply, whatever the rest of the content is.  The line
    "Typing a response now..." is long enough (8 characters or more) and
    has enough words (3 or more), holds the keyword "typing", and yields
    no reply. *)
Theorem extract_drops_keyword_lines (U : UnicodeTables)
    (content line keyword token : str) :
  tables_keep_keywords U →
  In keyword filter_keywords →
  case_variant token keyword →
  contains token line = true →
  keeps_line U line = false
  ∧ ¬ In line (filtered_lines U content)
  ∧ (∀ reply, extract_latest_reply U content = Some reply →
              ¬ In line (split_on NL reply))
  ∧ (too_short (lit "Typing a response now...") = false
     ∧ few_words U (lit "Typing a response now...") = false
     ∧ has_filter_keyword U (lit "Typing a response now...") = true
     ∧ extract_latest_reply U (lit "Typing a response now...") = None).
Proof.
  intros Htab Hkw Hvar Hin.
  assert (Hdrop : keeps_line U line = false).
  { unfold keeps_line.
    by rewrite (variant_found U line keyword token Htab Hkw Hvar Hin). }
  assert (Hnot : ¬ In line (filtered_lines U content)).
  { unfold filtered_lines. intros [_ Hkeep]%filter_In. congruence. }
  split; [exact Hdrop|]. split; [exact Hnot|]. split.
  - intros reply Hreply Hline.
    destruct (extract_latest_reply_lines U content reply Hreply)
      as (ls & Hne & -> & Hls).
    rewrite split_on_join in Hline; [|exact Hne|].
    + rewrite List.Forall_forall in Hls. by apply Hnot, Hls.
    + apply List.Forall_forall. intros l Hl.
      rewrite List.Forall_forall in Hls. specialize (Hls l Hl).
      unfold filtered_lines in Hls. apply filter_In in Hls as [Hls _].
      pose proof (stripped_lines_clean U content) as Hclean.
      rewrite List.Forall_forall in Hclean. by apply Hclean.
  - repeat split; vm_compute; reflexivity.
Qed.

Lemma extract_drops_keyword_lines_witness :
  keeps_line plain_tables (lit "Typing a response now...") = false.
Proof.
  refine (proj1 (extract_drops_keyword_lines plain_tables
                   (lit "Typing a response now...")
                   (lit "Typing a response now...")
                   (lit "typing") (lit "Typing") _ _ _ _)).
  - intros keyword c before after _ _ _. reflexivity.
  - apply list_elem_of_In, (bool_decide_unpack _). vm_compute. exact I.
  - constructor; [right; split; reflexivity|].
    repeat (constructor; [left; reflexivity|]). constructor.
  - reflexivity.
Defined.

(** ** The bridge loop *)

Section BridgeFacts.
Variable U : UnicodeTables.
Variable win : Window.
Variable W : World.

Lemma only_waited_refl (s : Loop) : only_waited s s.
Proof. by repeat split. Qed.

Lemma only_waited_trans (s1 s2 s3 : Loop) :
  only_waited s1 s2 → only_waited s2 s3 → only_waited s1 s3.
Proof.
  unfold only_waited.
  intros (A1 & A2 & A3 & A4 & A5 & A6 & A7 & A8)
         (B1 & B2 & B3 & B4 & B5 & B6 & B7 & B8).
  repeat split; try congruence. lia.
Qed.

(** What the waiting loop answers, and what it leaves alone. *)
Lemma wait_loop_result (fuel : nat) (side : Side) (last_content : str)
    (start_time timeout : nat) (s s' : Loop) (answer : option str) :
  wait_loop U W fuel side last_content start_time timeout s
  = Some (answer, s') →
  only_waited s s'
  ∧ match answer with
    | Some text =>
        text ≠ [] ∧ text ≠ last_content
        ∧ has_meaningful_change U last_content text = true
    | None =>
        is_running W (now s') = false
        ∨ (timeout ≤ now s' - start_time)%nat
    end.
Proof.
  revert s. induction fuel as [|fuel IH]; intros s; simpl; [discriminate|].
  destruct (is_running W (now s)) eqn:Hrun; simpl.
  - destruct (Nat.ltb_spec (now s - start_time) timeout) as [Hin|Hout].
    + assert (Hsleep : ∀ p,
        only_waited s (with_time (now s + check_interval) (with_ocr p s))).
      { intros p. repeat split. simpl. lia. }
      destruct (screen W side (now s)) as [screenshot|].
      * destruct (extract_text U (ocr s) screenshot) as [content p].
        destruct (negb (is_empty content)
                  && negb (bool_decide (content = last_content))
                  && has_meaningful_change U last_content content) eqn:Hacc.
        -- intros [= <- <-]. split; [by repeat split|].
           apply andb_prop in Hacc as [[H1 H2]%andb_prop H3].
           split; [by destruct content|].
           split; [|exact H3].
           apply negb_true_iff, bool_decide_eq_false in H2. exact H2.
        -- intros Hrec. destruct (IH _ Hrec) as [Hframe Hans].
           split; [|exact Hans].
           eapply only_waited_trans; [apply (Hsleep p)|exact Hframe].
      * intros Hrec. destruct (IH _ Hrec) as [Hframe Hans].
        split; [|exact Hans].
        eapply only_waited_trans; [|exact Hframe].
        repeat split. simpl. lia.
    + intros [= <- <-]. split; [apply only_waited_refl|]. by right.
  - intros [= <- <-]. split; [apply only_waited_refl|]. by left.
Qed.

(** The waiting loop ends: every poll that does not answer moves the
    clock by [check_interval]. *)
Lemma wait_loop_ends (fuel : nat) (side : Side) (last_content : str)
    (start_time timeout : nat) (s : Loop) :
  (start_time ≤ now s)%nat →
  (timeout - (now s - start_time) < fuel)%nat →
  wait_loop U W fuel side last_content start_time timeout s ≠ None.
Proof.
  revert s. induction fuel as [|fuel IH]; intros s Hstart Hfuel; [lia|].
  simpl. destruct (is_running W (now s)); simpl; [|done].
  destruct (Nat.ltb_spec (now s - start_time) timeout) as [Hin|Hout];
    [|done].
  assert (Hnext : ∀ s', now s' = (now s + check_interval)%nat →
    wait_loop U W fuel side last_content start_time timeout s' ≠ None).
  { intros s' Hnow. apply IH; rewrite Hnow; unfold check_interval; lia. }
  destruct (screen W side (now s)) as [screenshot|]; [|by apply Hnext].
  destruct (extract_text U (ocr s) screenshot) as [content p].
  destruct (_ && _); [done | by apply Hnext].
Qed.

Lemma wait_for_new_message_result (side : Side) (last_content : str)
    (timeout : nat) (s s' : Loop) (answer : option str) :
  wait_for_new_message U W side last_content timeout s = (answer, s') →
  wait_loop U W (S timeout) side last_content (now s) timeout s
  = Some (answer, s').
Proof.
  unfold wait_for_new_message.
  destruct (wait_loop U W (S timeout) side last_content (now s) timeout s)
    as [r|] eqn:Hloop.
  - by intros ->.
  - exfalso. revert Hloop. apply wait_loop_ends; lia.
Qed.

(** A forward is logged with its result and touches nothing else of the
    turn state. *)
Lemma forward_message_to_side_result (target : Side) (message : str)
    (s : Loop) :
  ∃ ok s',
    forward_message_to_side U win W target message s = (ok, s')
    ∧ forwards s' = forwards s ++ [(target, message, ok)]
    ∧ shown s' = shown s
    ∧ current_speaker s' = current_speaker s
    ∧ conversation_turn s' = conversation_turn s.
Proof.
  unfold forward_message_to_side.
  destruct (type_message U (gui_env W) (typer_config win)
              (region_of win target) message (gui s)) as [[[|]|] g];
    eexists _, _; repeat split.
Qed.

End BridgeFacts.

(** C1, amended: when the wait for the expected speaker runs into its
    timeout (60 seconds pass without an accepted change, and the bridge
    has not been stopped), no turn is committed: the turn count, the
    expected speaker, the last contents and the logs of shown and
    forwarded messages stay as they were.  The loop does not end there:
    the pass is over and the next pass waits for the same speaker
    again. *)
Theorem timeout_keeps_waiting (U : UnicodeTables) (win : Window)
    (W : World) (s s' : Loop) :
  is_running W (now s) = true →
  (conversation_turn s < max_turns win)%nat →
  wait_for_new_message U W (current_speaker s)
    (last_content (current_speaker s) s) 60 s = (None, s') →
  is_running W (now s') = true →
  (60 ≤ now s' - now s)%nat
  ∧ loop_body U win W s = Continue s'
  ∧ only_waited s s'
  ∧ ∀ fuel,
      bridge_from U win W (S (S fuel)) s
      = match loop_body U win W s' with
        | Continue s'' => bridge_from U win W fuel s''
        | Break why s'' => (Exited why, s'')
        end.
Proof.
  intros Hrun Hturn Hwait Hrun'.
  pose proof (wait_for_new_message_result U W _ _ _ _ _ _ Hwait) as Hloop.
  destruct (wait_loop_result U W _ _ _ _ _ _ _ _ Hloop) as [Hframe Hnone].
  assert (Hturn' : conversation_turn s' = conversation_turn s)
    by apply Hframe.
  assert (Hbody : loop_body U win W s = Continue s').
  { unfold loop_body. rewrite Hwait. unfold check_max_turns.
    rewrite Hturn'.
    by rewrite (proj2 (Nat.leb_gt _ _) Hturn). }
  split; [destruct Hnone as [Hstop|Hlate]; [congruence|exact Hlate]|].
  split; [exact Hbody|]. split; [exact Hframe|].
  intros fuel.
  change (bridge_from U win W (S (S fuel)) s)
    with (if is_running W (now s)
             && (conversation_turn s <? max_turns win)%nat
          then match loop_body U win W s with
               | Continue s0 => bridge_from U win W (S fuel) s0
               | Break why s0 => (Exited why, s0)
               end
          else (Exited WhileDone, s)).
  rewrite Hrun, (proj2 (Nat.ltb_lt _ _) Hturn), Hbody. simpl.
  by rewrite Hrun', Hturn', (proj2 (Nat.ltb_lt _ _) Hturn).
Qed.

Lemma timeout_keeps_waiting_witness :
  loop_body plain_tables Scenarios.window Scenarios.late_greeting
    (start Scenarios.processor fresh_gui)
  = Continue
      (wait_for_new_message plain_tables Scenarios.late_greeting Left []
         60 (start Scenarios.processor fresh_gui)).2.
Proof.
  refine (proj1 (proj2 (timeout_keeps_waiting plain_tables Scenarios.window
                          Scenarios.late_greeting
                          (start Scenarios.processor fresh_gui) _ _ _ _ _))).
  - reflexivity.
  - simpl. lia.
  - vm_compute. reflexivity.
  - reflexivity.
Defined.

(** C1 as stated fails: the left side stays blank for 60 seconds, so the
    first wait times out; the loop is still running after that pass, with
    no turn counted, and in the next pass it waits for the left side
    again, reads the greeting that has appeared and relays it. *)
Lemma late_greeting_relayed_after_timeout :
  let run := _bridge_loop plain_tables Scenarios.window
               Scenarios.late_greeting in
  (wait_for_new_message plain_tables Scenarios.late_greeting Left [] 60
     (start Scenarios.processor fresh_gui)).1 = None
  ∧ (run 1%nat Scenarios.processor fresh_gui).1 = Running
  ∧ now (run 1%nat Scenarios.processor fresh_gui).2 = 60%nat
  ∧ conversation_turn (run 1%nat Scenarios.processor fresh_gui).2 = 0%nat
  ∧ (run 2%nat Scenarios.processor fresh_gui).1 = Running
  ∧ conversation_turn (run 2%nat Scenarios.processor fresh_gui).2 = 1%nat
  ∧ forwards (run 2%nat Scenarios.processor fresh_gui).2
    = [(Right, lit Scenarios.hello, true)].
Proof. repeat split; vm_compute; reflexivity. Qed.

Section LedgerFacts.
Variable md5_hex : str → str.

Lemma add_message_duplicate (m : Manager) (session a b content' : str) :
  is_duplicate_message true m session (md5_hex content') = true →
  add_message md5_hex true m session a b content' = (false, m).
Proof.
  unfold add_message, calculate_message_hash.
  destruct (encodes content'); [|done]. by intros ->.
Qed.

Lemma filter_length_pos {A} (f : A → bool) (l : list A) (x : A) :
  In x l → f x = true → (0 < length (List.filter f l))%nat.
Proof.
  intros Hx Hf.
  assert (H : In x (List.filter f l)) by (apply filter_In; done).
  destruct (List.filter f l); [done | simpl; lia].
Qed.

Lemma add_message_stored (m m' : Manager) (session a b content' : str) :
  auto_save m = true →
  add_message md5_hex true m session a b content' = (true, m') →
  is_duplicate_message true m' session (md5_hex content') = true.
Proof.
  unfold add_message, calculate_message_hash. intros Hauto.
  destruct (encodes content'); [|discriminate].
  destruct (is_duplicate_message true m session (md5_hex content'));
    [discriminate|].
  simpl. rewrite Hauto. intros [= <-].
  unfold save_cached_messages. simpl.
  destruct (message_cache m ++ _) as [|row rows] eqn:Hcache.
  { by destruct (message_cache m). }
  unfold is_duplicate_message. simpl. apply Nat.ltb_lt.
  eapply (filter_length_pos _ _
            {| session_id := session; sender := a; recipient := b;
               content := content'; message_hash := md5_hex content' |}).
  - apply in_or_app. right. rewrite <- Hcache. apply in_or_app. right.
    by left.
  - simpl. by rewrite !bool_decide_eq_true_2.
Qed.

End LedgerFacts.

(** C2, amended: the loop does not consult the message store.  After an
    accepted change whose extracted turn is not null, the turn is shown
    and handed to the delivery on the opposite side in every case,
    whatever was relayed before; the speaker flips and the turn count
    grows exactly when that delivery succeeds, and a failed delivery ends
    the loop.  The duplicate check exists in [add_message] of the store,
    which the loop does not call: there a content whose hash is already
    stored for the session is refused and the store stays as it is, and
    a content that was just stored is a duplicate from then on. *)
Theorem reply_is_forwarded (U : UnicodeTables) (win : Window) (W : World)
    (s s1 : Loop) (new_message latest_reply : str) :
  wait_for_new_message U W (current_speaker s)
    (last_content (current_speaker s) s) 60 s = (Some new_message, s1) →
  extract_latest_reply U new_message = Some latest_reply →
  (∃ ok s2,
     forward_message_to_side U win W (opposite (current_speaker s))
       latest_reply
       (add_conversation_message (current_speaker s)
          (opposite (current_speaker s)) latest_reply
          (with_last_content (current_speaker s) new_message s1))
     = (ok, s2)
     ∧ shown s2
       = shown s ++ [(current_speaker s, opposite (current_speaker s),
                      latest_reply)]
     ∧ forwards s2
       = forwards s ++ [(opposite (current_speaker s), latest_reply, ok)]
     ∧ loop_body U win W s
       = if ok
         then check_max_turns win
                (next_turn (opposite (current_speaker s)) s2)
         else Break ForwardFailed s2)
  ∧ (∀ md5_hex m session a b,
       is_duplicate_message true m session (md5_hex latest_reply) = true →
       add_message md5_hex true m session a b latest_reply = (false, m))
  ∧ (∀ md5_hex m m' session a b,
       auto_save m = true →
       add_message md5_hex true m session a b latest_reply = (true, m') →
       is_duplicate_message true m' session (md5_hex latest_reply) = true).
Proof.
  intros Hwait Hreply.
  split; [|split; [intros; by apply add_message_duplicate
                  | intros; by eapply add_message_stored]].
  pose proof (wait_for_new_message_result U W _ _ _ _ _ _ Hwait) as Hloop.
  destruct (wait_loop_result U W _ _ _ _ _ _ _ _ Hloop)
    as [Hframe (Hne & _ & _)].
  destruct Hframe as (Hsp & _ & _ & _ & _ & Hshown & Hfwd & _).
  assert (Hreply_ne : latest_reply ≠ []).
  { destruct (extract_latest_reply_lines U _ _ Hreply)
      as (ls & Hls & -> & Hall).
    destruct ls as [|l ls]; [done|].
    inversion Hall as [|? ? Hl _]; subst.
    unfold filtered_lines in Hl. apply filter_In in Hl as [_ Hkeep].
    unfold keeps_line in Hkeep.
    apply andb_prop in Hkeep as [[[[_ Hlen]%andb_prop _]%andb_prop _]%andb_prop _].
    destruct l; [by vm_compute in Hlen|]. by destruct ls. }
  destruct (forward_message_to_side_result U win W
              (opposite (current_speaker s)) latest_reply
              (add_conversation_message (current_speaker s)
                 (opposite (current_speaker s)) latest_reply
                 (with_last_content (current_speaker s) new_message s1)))
    as (ok & s2 & Hfw & Hf & Hs & _ & _).
  exists ok, s2. split; [exact Hfw|].
  split; [rewrite Hs; simpl; by rewrite Hshown|].
  split; [rewrite Hf; simpl; by rewrite Hfwd|].
  unfold loop_body. rewrite Hwait.
  destruct new_message as [|c0 r0]; [done|]. rewrite Hreply.
  destruct latest_reply as [|c1 r1]; [done|]. by rewrite Hfw.
Qed.

Lemma reply_is_forwarded_witness :
  let s := start Scenarios.processor fresh_gui in
  let s1 := (wait_for_new_message plain_tables Scenarios.echo Left [] 60
               s).2 in
  ∃ ok s2,
    forward_message_to_side plain_tables Scenarios.window Scenarios.echo
      Right (lit Scenarios.hello)
      (add_conversation_message Left Right (lit Scenarios.hello)
         (with_last_content Left (lit Scenarios.hello) s1))
    = (ok, s2)
    ∧ shown s2 = shown s ++ [(Left, Right, lit Scenarios.hello)]
    ∧ forwards s2 = forwards s ++ [(Right, lit Scenarios.hello, ok)]
    ∧ loop_body plain_tables Scenarios.window Scenarios.echo s
      = if ok
        then check_max_turns Scenarios.window (next_turn Right s2)
        else Break ForwardFailed s2.
Proof.
  refine (proj1 (reply_is_forwarded plain_tables Scenarios.window
                   Scenarios.echo (start Scenarios.processor fresh_gui)
                   _ (lit Scenarios.hello) (lit Scenarios.hello) _ _)).
  - vm_compute. reflexivity.
  - vm_compute. reflexivity.
Defined.

(** C2 as stated fails: both sides show the same greeting.  The first
    pass relays it from left to right; the second pass extracts the same
    text on the right and relays it to the left, and the speaker flips
    again, although a store that had recorded the first relay reports the
    second as a duplicate. *)
Lemma echo_relayed_twice :
  let final := (_bridge_loop plain_tables Scenarios.window Scenarios.echo
                  2 Scenarios.processor fresh_gui).2 in
  let recorded := (add_message (λ content, content) true empty_manager
                     (lit "session") (lit "left") (lit "right")
                     (lit Scenarios.hello)).2 in
  forwards final
  = [(Right, lit Scenarios.hello, true); (Left, lit Scenarios.hello, true)]
  ∧ conversation_turn final = 2%nat
  ∧ current_speaker final = Left
  ∧ add_message (λ content, content) true recorded
      (lit "session") (lit "right") (lit "left") (lit Scenarios.hello)
    = (false, recorded).
Proof. repeat split; vm_compute; reflexivity. Qed.

Section AlternationFacts.
Variable U : UnicodeTables.
Variable win : Window.
Variable W : World.

Lemma speaker_after_S (k : nat) :
  speaker_after (S k) = opposite (speaker_after k).
Proof.
  unfold speaker_after. rewrite Nat.even_succ, <- Nat.negb_even.
  by destruct (Nat.even k).
Qed.

Lemma check_max_turns_state (s : Loop) :
  outcome_state (check_max_turns win s) = s.
Proof. unfold check_max_turns. by destruct (_ <=? _)%nat. Qed.

(** One pass either leaves turn count, speaker and relayed turns as they
    are, or counts one turn more, flips the speaker and has relayed one
    more turn, to the side that was not speaking. *)
Lemma loop_body_step (s : Loop) :
  let s' := outcome_state (loop_body U win W s) in
  (conversation_turn s' = conversation_turn s
   ∧ current_speaker s' = current_speaker s
   ∧ committed s' = committed s)
  ∨ (conversation_turn s' = S (conversation_turn s)
     ∧ current_speaker s' = opposite (current_speaker s)
     ∧ ∃ message,
         committed s'
         = committed s ++ [(opposite (current_speaker s), message, true)]).
Proof.
  cbv zeta. unfold loop_body.
  destruct (wait_for_new_message U W (current_speaker s)
              (last_content (current_speaker s) s) 60 s)
    as [answer s1] eqn:Hwait.
  pose proof (wait_for_new_message_result U W _ _ _ _ _ _ Hwait) as Hloop.
  destruct (wait_loop_result U W _ _ _ _ _ _ _ _ Hloop) as [Hframe _].
  destruct Hframe as (Hsp & _ & _ & Hturn & _ & _ & Hfwd & _).
  assert (Hsame : ∀ s0,
    conversation_turn s0 = conversation_turn s1 →
    current_speaker s0 = current_speaker s1 →
    forwards s0 = forwards s1 →
    conversation_turn s0 = conversation_turn s
    ∧ current_speaker s0 = current_speaker s
    ∧ committed s0 = committed s).
  { intros s0 H1 H2 H3. unfold committed. rewrite H3, Hfwd.
    split; [congruence|]. split; [congruence|reflexivity]. }
  destruct answer as [[|c0 r0]|];
    [rewrite check_max_turns_state; left; by apply Hsame
    | | rewrite check_max_turns_state; left; by apply Hsame].
  destruct (extract_latest_reply U (c0 :: r0)) as [[|c1 r1]|];
    [rewrite check_max_turns_state; left; by apply Hsame
    | | rewrite check_max_turns_state; left; by apply Hsame].
  destruct (forward_message_to_side_result U win W
              (opposite (current_speaker s)) (c1 :: r1)
              (add_conversation_message (current_speaker s)
                 (opposite (current_speaker s)) (c1 :: r1)
                 (with_last_content (current_speaker s) (c0 :: r0) s1)))
    as (ok & s2 & -> & Hf & _ & Hs2 & Ht2).
  simpl in Hf, Hs2, Ht2.
  destruct ok.
  - rewrite check_max_turns_state. right. simpl.
    split; [congruence|]. split; [done|].
    exists (c1 :: r1). unfold committed. simpl.
    rewrite Hf, Hfwd, List.filter_app. reflexivity.
  - left. simpl. split; [congruence|]. split; [congruence|].
    unfold committed. rewrite Hf, Hfwd, List.filter_app. simpl.
    apply app_nil_r.
Qed.

Lemma alternating_step (s : Loop) :
  alternating s → alternating (outcome_state (loop_body U win W s)).
Proof.
  intros (Hcount & Hspeaker & Htargets).
  destruct (loop_body_step s) as [(Ht & Hs & Hc)|(Ht & Hs & message & Hc)].
  - unfold alternating. rewrite Ht, Hs, Hc. done.
  - unfold alternating. rewrite Ht, Hs, Hc. split; [|split].
    + rewrite length_app. simpl. lia.
    + by rewrite speaker_after_S, Hspeaker.
    + intros k target message' ok Hk.
      destruct (decide (k < length (committed s))%nat) as [Hlt|Hge].
      * rewrite lookup_app_l in Hk by done. by eapply Htargets.
      * rewrite lookup_app_r in Hk by lia.
        destruct (k - length (committed s))%nat as [|n] eqn:Hn;
          [|by destruct n].
        simpl in Hk. injection Hk as <- _ _.
        assert (k = conversation_turn s) as -> by lia.
        by rewrite Hspeaker.
Qed.

Lemma alternating_run (fuel : nat) (s : Loop) :
  alternating s → alternating (bridge_from U win W fuel s).2.
Proof.
  revert s. induction fuel as [|fuel IH]; intros s Hs; simpl; [done|].
  destruct (_ && _); [|done].
  pose proof (alternating_step s Hs) as Hstep.
  destruct (loop_body U win W s) as [s'|why s']; simpl in Hstep.
  - by apply IH.
  - done.
Qed.

End AlternationFacts.

(** C3: the loop starts with the left side as speaker and no turn
    counted, and after any number of passes the turn count is the number
    of turns relayed so far, the speaker is the left side after an even
    number of turns and the right side after an odd number, and the k-th
    relayed turn (counted from 0) went to the side opposite the speaker of
    that moment: right, left, right, ...  Each pass either changes none of
    this or counts exactly one turn more while it relays exactly one turn
    and flips the speaker. *)
Theorem turns_alternate (U : UnicodeTables) (win : Window) (W : World)
    (fuel : nat) (p : Processor) (g : Gui) :
  let final := (_bridge_loop U win W fuel p g).2 in
  current_speaker (start p g) = Left
  ∧ conversation_turn final = length (committed final)
  ∧ current_speaker final = speaker_after (conversation_turn final)
  ∧ (∀ k target message ok,
       committed final !! k = Some (target, message, ok) →
       target = opposite (speaker_after k))
  ∧ (∀ s,
       let s' := outcome_state (loop_body U win W s) in
       (conversation_turn s' = conversation_turn s
        ∧ current_speaker s' = current_speaker s
        ∧ committed s' = committed s)
       ∨ (conversation_turn s' = S (conversation_turn s)
          ∧ current_speaker s' = opposite (current_speaker s)
          ∧ ∃ message,
              committed s'
              = committed s
                ++ [(opposite (current_speaker s), message, true)])).
Proof.
  cbv zeta. split; [reflexivity|].
  destruct (alternating_run U win W fuel (start p g)) as (H1 & H2 & H3).
  { repeat split. intros k target message ok Hk. by destruct k. }
  split; [exact H1|]. split; [exact H2|]. split; [exact H3|].
  apply loop_body_step.
Qed.

(** * Further properties of the code *)

(** ** Waiting for a message *)

Section WaitFacts.
Variable U : UnicodeTables.
Variable W : World.

(** The clock of the waiting loop: it moves in steps of [check_interval],
    a poll is only started before the timeout, and an answered wait was
    still running and in time at the poll that answered. *)
Lemma wait_loop_clock (fuel : nat) (side : Side) (last_content : str)
    (start_time timeout : nat) (s s' : Loop) (answer : option str) :
  wait_loop U W fuel side last_content start_time timeout s
  = Some (answer, s') →
  (start_time ≤ now s)%nat →
  ∃ k : nat,
    now s' = (now s + check_interval * k)%nat
    ∧ (k = 0%nat ∨ (now s' < start_time + timeout + check_interval)%nat)
    ∧ (is_Some answer →
       is_running W (now s') = true
       ∧ (now s' - start_time < timeout)%nat).
Proof.
  revert s. induction fuel as [|fuel IH]; intros s; simpl; [discriminate|].
  intros Hrun Hstart.
  destruct (is_running W (now s)) eqn:Hflag; simpl in Hrun.
  - destruct (Nat.ltb_spec (now s - start_time) timeout) as [Hin|Hout].
    + assert (Hnext : ∀ s2, now s2 = (now s + check_interval)%nat →
        wait_loop U W fuel side last_content start_time timeout s2
        = Some (answer, s') →
        ∃ k : nat,
          now s' = (now s + check_interval * k)%nat
          ∧ (k = 0%nat
             ∨ (now s' < start_time + timeout + check_interval)%nat)
          ∧ (is_Some answer →
             is_running W (now s') = true
             ∧ (now s' - start_time < timeout)%nat)).
      { intros s2 Hnow Hrec.
        destruct (IH s2 Hrec) as (k & Hk & Hbound & Hans); [lia|].
        exists (S k). split; [lia|]. split; [|exact Hans].
        right. destruct Hbound as [->|Hlt]; [|lia].
        rewrite Hk, Hnow. unfold check_interval. lia. }
      destruct (screen W side (now s)) as [screenshot|].
      * destruct (extract_text U (ocr s) screenshot) as [content p].
        destruct (negb (is_empty content)
                  && negb (bool_decide (content = last_content))
                  && has_meaningful_change U last_content content).
        -- injection Hrun as <- <-. exists 0%nat. simpl.
           split; [lia|]. split; [by left|]. by intros _.
        -- by eapply Hnext; [|exact Hrun].
      * by eapply Hnext; [|exact Hrun].
    + injection Hrun as <- <-. exists 0%nat.
      split; [lia|]. split; [by left|]. by intros [? [=]].
  - injection Hrun as <- <-. exists 0%nat.
    split; [lia|]. split; [by left|]. by intros [? [=]].
Qed.

End WaitFacts.

(** X1: a message that [wait_for_new_message] returns is not empty,
    differs from the last content of that side and is a meaningful change
    against it; it was read while the bridge was running and before the
    timeout; the wait has changed nothing but the clock and the OCR
    cache. *)
Theorem wait_for_new_message_answer (U : UnicodeTables) (W : World)
    (side : Side) (last_content text : str) (timeout : nat) (s s' : Loop) :
  wait_for_new_message U W side last_content timeout s = (Some text, s') →
  text ≠ [] ∧ text ≠ last_content
  ∧ has_meaningful_change U last_content text = true
  ∧ is_running W (now s') = true
  ∧ (now s' - now s < timeout)%nat
  ∧ only_waited s s'.
Proof.
  intros Hwait.
  pose proof (wait_for_new_message_result U W _ _ _ _ _ _ Hwait) as Hloop.
  destruct (wait_loop_result U W _ _ _ _ _ _ _ _ Hloop)
    as [Hframe (H1 & H2 & H3)].
  destruct (wait_loop_clock U W _ _ _ _ _ _ _ _ Hloop) as (k & _ & _ & Hans);
    [lia|].
  destruct Hans as [H4 H5]; [by eexists|]. done.
Qed.

Lemma wait_for_new_message_answer_witness :
  lit Scenarios.hello ≠ []
  ∧ lit Scenarios.hello ≠ []
  ∧ has_meaningful_change plain_tables [] (lit Scenarios.hello) = true
  ∧ is_running Scenarios.late_greeting
      (now (wait_for_new_message plain_tables Scenarios.late_greeting Left
              [] 90 (start Scenarios.processor fresh_gui)).2) = true
  ∧ (now (wait_for_new_message plain_tables Scenarios.late_greeting Left
            [] 90 (start Scenarios.processor fresh_gui)).2
     - now (start Scenarios.processor fresh_gui) < 90)%nat
  ∧ only_waited (start Scenarios.processor fresh_gui)
      (wait_for_new_message plain_tables Scenarios.late_greeting Left
         [] 90 (start Scenarios.processor fresh_gui)).2.
Proof.
  apply (wait_for_new_message_answer plain_tables Scenarios.late_greeting
           Left [] (lit Scenarios.hello) 90).
  vm_compute. reflexivity.
Defined.

(** ** The passes of the bridge loop *)

Section PassFacts.
Variable U : UnicodeTables.
Variable win : Window.
Variable W : World.

(** The three ways a pass can go: nothing relayed, one turn relayed, or
    one delivery failed. *)
Lemma loop_body_cases (s : Loop) :
  let o := loop_body U win W s in
  let s' := outcome_state o in
  let speaker := current_speaker s in
  (o = check_max_turns win s'
   ∧ conversation_turn s' = conversation_turn s
   ∧ current_speaker s' = speaker
   ∧ forwards s' = forwards s ∧ shown s' = shown s)
  ∨ (∃ message, message ≠ []
       ∧ o = check_max_turns win s'
       ∧ conversation_turn s' = S (conversation_turn s)
       ∧ current_speaker s' = opposite speaker
       ∧ forwards s' = forwards s ++ [(opposite speaker, message, true)]
       ∧ shown s' = shown s ++ [(speaker, opposite speaker, message)])
  ∨ (∃ message, message ≠ []
       ∧ o = Break ForwardFailed s'
       ∧ conversation_turn s' = conversation_turn s
       ∧ current_speaker s' = speaker
       ∧ forwards s' = forwards s ++ [(opposite speaker, message, false)]
       ∧ shown s' = shown s ++ [(speaker, opposite speaker, message)]).
Proof.
  cbv zeta. unfold loop_body.
  destruct (wait_for_new_message U W (current_speaker s)
              (last_content (current_speaker s) s) 60 s)
    as [answer s1] eqn:Hwait.
  pose proof (wait_for_new_message_result U W _ _ _ _ _ _ Hwait) as Hloop.
  destruct (wait_loop_result U W _ _ _ _ _ _ _ _ Hloop) as [Hframe _].
  destruct Hframe as (Hsp & _ & _ & Hturn & _ & Hshown & Hfwd & _).
  assert (Hquiet : ∀ s0,
    conversation_turn s0 = conversation_turn s1 →
    current_speaker s0 = current_speaker s1 →
    forwards s0 = forwards s1 → shown s0 = shown s1 →
    check_max_turns win s0
    = check_max_turns win (outcome_state (check_max_turns win s0))
    ∧ conversation_turn (outcome_state (check_max_turns win s0))
      = conversation_turn s
    ∧ current_speaker (outcome_state (check_max_turns win s0))
      = current_speaker s
    ∧ forwards (outcome_state (check_max_turns win s0)) = forwards s
    ∧ shown (outcome_state (check_max_turns win s0)) = shown s).
  { intros s0 H1 H2 H3 H4. rewrite check_max_turns_state.
    repeat split; congruence. }
  destruct answer as [[|c0 r0]|]; [left; by apply Hquiet | |
                                   left; by apply Hquiet].
  destruct (extract_latest_reply U (c0 :: r0)) as [[|c1 r1]|];
    [left; by apply Hquiet | | left; by apply Hquiet].
  destruct (forward_message_to_side_result U win W
              (opposite (current_speaker s)) (c1 :: r1)
              (add_conversation_message (current_speaker s)
                 (opposite (current_speaker s)) (c1 :: r1)
                 (with_last_content (current_speaker s) (c0 :: r0) s1)))
    as (ok & s2 & -> & Hf & Hs & Hs2 & Ht2).
  simpl in Hf, Hs, Hs2, Ht2.
  destruct ok.
  - right; left. exists (c1 :: r1). rewrite check_max_turns_state.
    split; [done|]. split; [done|]. simpl.
    split; [congruence|]. split; [done|].
    rewrite Hf, Hs, Hfwd, Hshown. done.
  - right; right. exists (c1 :: r1). simpl.
    split; [done|]. split; [done|].
    split; [congruence|]. split; [congruence|].
    rewrite Hf, Hs, Hfwd, Hshown. done.
Qed.

Lemma check_max_turns_cases (s : Loop) :
  (check_max_turns win s = Continue s
   ∧ (conversation_turn s < max_turns win)%nat)
  ∨ (check_max_turns win s = Break ReachedMaxTurns s
     ∧ (max_turns win ≤ conversation_turn s)%nat).
Proof.
  unfold check_max_turns.
  destruct (Nat.leb_spec (max_turns win) (conversation_turn s));
    [right | left]; done.
Qed.

(** The turn count stays at or below the cap, and the exit at the cap is
    taken with the count on the cap. *)
Lemma bridge_from_cap (fuel : nat) (s : Loop) :
  (conversation_turn s ≤ max_turns win)%nat →
  (conversation_turn (bridge_from U win W fuel s).2 ≤ max_turns win)%nat
  ∧ ((bridge_from U win W fuel s).1 = Exited ReachedMaxTurns →
     conversation_turn (bridge_from U win W fuel s).2 = max_turns win).
Proof.
  revert s. induction fuel as [|fuel IH]; intros s Hle; simpl; [done|].
  destruct (is_running W (now s)); simpl; [|done].
  destruct (Nat.ltb_spec (conversation_turn s) (max_turns win))
    as [Hlt|Hge]; [|done].
  destruct (loop_body_cases s)
    as [(Ho & Ht & _)|[(m & _ & Ho & Ht & _)|(m & _ & Ho & Ht & _)]];
    rewrite Ho.
  - destruct (check_max_turns_cases
                (outcome_state (loop_body U win W s))) as [[-> Hc]|[-> Hc]].
    + apply IH. lia.
    + simpl. split; [lia|]. intros _. lia.
  - destruct (check_max_turns_cases
                (outcome_state (loop_body U win W s))) as [[-> Hc]|[-> Hc]].
    + apply IH. lia.
    + simpl. split; [lia|]. intros _. lia.
  - simpl. split; [lia | discriminate].
Qed.

End PassFacts.

(** X3: the turn count never passes the cap [max_turns], whatever the
    sides show and however many passes are made, and when the loop leaves
    through the check of the cap the count equals the cap. *)
Theorem bridge_loop_cap (U : UnicodeTables) (win : Window) (W : World)
    (fuel : nat) (p : Processor) (g : Gui) :
  let result := _bridge_loop U win W fuel p g in
  (conversation_turn result.2 ≤ max_turns win)%nat
  ∧ (result.1 = Exited ReachedMaxTurns →
     conversation_turn result.2 = max_turns win).
Proof.
  cbv zeta. unfold _bridge_loop. apply bridge_from_cap. simpl. lia.
Qed.

Section LogFacts.
Variable U : UnicodeTables.
Variable win : Window.
Variable W : World.

(** What holds of the two logs between passes: every shown turn was
    handed to the delivery, towards the side it was shown for; no empty
    message was handed over; and so far every delivery succeeded. *)
Lemma bridge_from_logs (fuel : nat) (s : Loop) :
  shown s = List.map (λ e, (opposite e.1.1, e.1.1, e.1.2)) (forwards s) →
  Forall (λ e, e.1.2 ≠ []) (forwards s) →
  Forall (λ e, e.2 = true) (forwards s) →
  let result := bridge_from U win W fuel s in
  shown result.2
  = List.map (λ e, (opposite e.1.1, e.1.1, e.1.2)) (forwards result.2)
  ∧ Forall (λ e, e.1.2 ≠ []) (forwards result.2)
  ∧ (result.1 ≠ Exited ForwardFailed →
     Forall (λ e, e.2 = true) (forwards result.2))
  ∧ (result.1 = Exited ForwardFailed →
     ∃ old target message,
       forwards result.2 = old ++ [(target, message, false)]
       ∧ Forall (λ e, e.2 = true) old).
Proof.
  cbv zeta. revert s.
  induction fuel as [|fuel IH]; intros s Hshown Hne Hok; simpl.
  { repeat split; try done. }
  destruct (is_running W (now s) && _); [|repeat split; done].
  assert (Hopp : ∀ side, opposite (opposite side) = side) by (by intros []).
  destruct (loop_body_cases U win W s)
    as [(Ho & _ & _ & Hf & Hs)
       |[(m & Hm & Ho & _ & _ & Hf & Hs)|(m & Hm & Ho & _ & _ & Hf & Hs)]].
  - assert (Hinv : shown (outcome_state (loop_body U win W s))
        = List.map (λ e, (opposite e.1.1, e.1.1, e.1.2))
            (forwards (outcome_state (loop_body U win W s)))
        ∧ Forall (λ e, e.1.2 ≠ [])
            (forwards (outcome_state (loop_body U win W s)))
        ∧ Forall (λ e, e.2 = true)
            (forwards (outcome_state (loop_body U win W s)))).
    { rewrite Hf, Hs. done. }
    destruct Hinv as (I1 & I2 & I3). rewrite Ho.
    destruct (check_max_turns_cases win
                (outcome_state (loop_body U win W s))) as [[-> _]|[-> _]].
    + by apply IH.
    + simpl. repeat split; done.
  - assert (Hinv : shown (outcome_state (loop_body U win W s))
        = List.map (λ e, (opposite e.1.1, e.1.1, e.1.2))
            (forwards (outcome_state (loop_body U win W s)))
        ∧ Forall (λ e, e.1.2 ≠ [])
            (forwards (outcome_state (loop_body U win W s)))
        ∧ Forall (λ e, e.2 = true)
            (forwards (outcome_state (loop_body U win W s)))).
    { rewrite Hf, Hs, List.map_app, Hshown. simpl. rewrite Hopp.
      split; [done|]. split; apply Forall_app; split; try done;
        by repeat constructor. }
    destruct Hinv as (I1 & I2 & I3). rewrite Ho.
    destruct (check_max_turns_cases win
                (outcome_state (loop_body U win W s))) as [[-> _]|[-> _]].
    + by apply IH.
    + simpl. repeat split; done.
  - rewrite Ho. simpl. rewrite Hf, Hs, List.map_app, Hshown. simpl.
    rewrite Hopp. split; [done|].
    split; [apply Forall_app; split; [done | by repeat constructor]|].
    split; [done|]. intros _. by eexists _, _, _.
Qed.

End LogFacts.

(** X4: in any run of the loop, the shown turns and the deliveries
    correspond one to one: each turn shown as going from a side to the
    other was handed to the delivery for that other side, in the same
    order.  No empty message is handed to the delivery.  A failed
    delivery can only be the last entry, and then the loop has ended on
    it; in every other case all deliveries so far succeeded. *)
Theorem bridge_loop_logs (U : UnicodeTables) (win : Window) (W : World)
    (fuel : nat) (p : Processor) (g : Gui) :
  let result := _bridge_loop U win W fuel p g in
  shown result.2
  = List.map (λ e, (opposite e.1.1, e.1.1, e.1.2)) (forwards result.2)
  ∧ Forall (λ e, e.1.2 ≠ []) (forwards result.2)
  ∧ (result.1 ≠ Exited ForwardFailed →
     Forall (λ e, e.2 = true) (forwards result.2))
  ∧ (result.1 = Exited ForwardFailed →
     ∃ old target message,
       forwards result.2 = old ++ [(target, message, false)]
       ∧ Forall (λ e, e.2 = true) old).
Proof.
  cbv zeta. unfold _bridge_loop.
  apply bridge_from_logs; [reflexivity | constructor | constructor].
Qed.

(** ** Change detection and reply extraction, further *)

Section ReplyFacts2.
Variable U : UnicodeTables.

Lemma filter_length_zero {A} (f : A → bool) (l : list A) :
  length (List.filter f l) = 0%nat ↔ ∀ x, In x l → f x = false.
Proof.
  induction l as [|a l IH]; simpl; [done|].
  destruct (f a) eqn:Ha; simpl.
  - split; [discriminate|]. intros H. specialize (H a (or_introl eq_refl)).
    congruence.
  - rewrite IH. split.
    + intros H x [<-|Hx]; auto.
    + intros H x Hx. apply H. by right.
Qed.

Lemma sort_by_len_desc_nil (l : list str) :
  sort_by_len_desc l = [] ↔ l = [].
Proof.
  split; [|by intros ->].
  destruct l as [|x l]; [done|]. intros H.
  assert (Hin : In x (sort_by_len_desc (x :: l)))
    by (apply sort_by_len_desc_In; by left).
  by rewrite H in Hin.
Qed.

(** After sorting, no line is longer than the first. *)
Lemma sort_by_len_desc_head (l : list str) (first : str) (rest : list str) :
  sort_by_len_desc l = first :: rest →
  ∀ x, In x l → (length x ≤ length first)%nat.
Proof.
  revert first rest. induction l as [|y l IH]; intros first rest; simpl;
    [discriminate|].
  destruct (sort_by_len_desc l) as [|h t] eqn:Hsort.
  - apply (proj1 (sort_by_len_desc_nil _)) in Hsort as ->. simpl.
    intros [= <- <-] x [<-|[]]. lia.
  - simpl. destruct (Nat.leb_spec (length h) (length y)) as [Hle|Hgt].
    + intros [= <- <-] x [<-|Hx]; [lia|].
      specialize (IH h t eq_refl x Hx). lia.
    + intros [= <- <-] x [<-|Hx]; [lia|]. by apply (IH h t).
Qed.

(** A reply is the join of lines that passed the tests, a longest one
    among them. *)
Lemma extract_latest_reply_shape (content reply : str) :
  extract_latest_reply U content = Some reply →
  ∃ ls longest,
    reply = join [NL] ls
    ∧ Forall (λ l, In l (filtered_lines U content)) ls
    ∧ In longest ls
    ∧ ∀ line, In line (filtered_lines U content) →
              (length line ≤ length longest)%nat.
Proof.
  unfold extract_latest_reply, filtered_lines.
  destruct content as [|c0 content0]; [discriminate|].
  destruct (stripped_lines U (c0 :: content0)) as [|l0 lines0];
    [discriminate|].
  remember (l0 :: lines0) as lines eqn:Hlines. clear Hlines.
  destruct (sort_by_len_desc (List.filter (keeps_line U) lines))
    as [|first [|second rest]] eqn:Hsort; [discriminate| |].
  - intros [= <-]. exists [first], first.
    assert (Hf : In first (List.filter (keeps_line U) lines)).
    { apply sort_by_len_desc_In. rewrite Hsort. by left. }
    split; [done|]. split; [by repeat constructor|].
    split; [by left|]. by apply (sort_by_len_desc_head _ _ _ Hsort).
  - intros [= <-].
    assert (Hf : In first (List.filter (keeps_line U) lines)).
    { apply sort_by_len_desc_In. rewrite Hsort. by left. }
    eexists _, first. split; [reflexivity|]. split; [|split].
    + apply List.Forall_forall. intros l [_ Hl]%filter_In.
      apply (str_in_In l [first; second]) in Hl.
      apply sort_by_len_desc_In. rewrite Hsort.
      destruct Hl as [<-|[<-|[]]]; [by left | by right; left].
    + apply filter_In. split; [by apply filter_In in Hf as [Hf _]|].
      unfold str_in. simpl. by rewrite bool_decide_eq_true_2.
    + by apply (sort_by_len_desc_head _ _ _ Hsort).
Qed.

End ReplyFacts2.

(** X5: [extract_latest_reply] returns [None] exactly when no line of the
    content passes the five tests (the empty content included). *)
Theorem extract_latest_reply_none (U : UnicodeTables) (content : str) :
  extract_latest_reply U content = None ↔ filtered_lines U content = [].
Proof.
  unfold extract_latest_reply, filtered_lines.
  destruct content as [|c0 content0]; [done|].
  destruct (stripped_lines U (c0 :: content0)) as [|l0 lines0]; [done|].
  destruct (sort_by_len_desc (List.filter (keeps_line U) (l0 :: lines0)))
    as [|first [|second rest]] eqn:Hsort.
  - apply (proj1 (sort_by_len_desc_nil _)) in Hsort. by rewrite Hsort.
  - split; [discriminate|]. intros Hnil. by rewrite Hnil in Hsort.
  - split; [discriminate|]. intros Hnil. by rewrite Hnil in Hsort.
Qed.

(** X6: a reply is not empty; each of its lines is a stripped line of
    the content that passed the five tests, so it has at least 8
    characters and 3 words; and one of its lines is a longest line among
    those that passed. *)
Theorem extract_latest_reply_some (U : UnicodeTables) (content reply : str) :
  extract_latest_reply U content = Some reply →
  reply ≠ []
  ∧ (∀ line, In line (split_on NL reply) →
       In line (stripped_lines U content)
       ∧ keeps_line U line = true
       ∧ (8 ≤ len line)%Z
       ∧ (3 ≤ len_list (split_ws U line))%Z)
  ∧ ∃ longest, In longest (split_on NL reply)
      ∧ ∀ line, In line (filtered_lines U content) →
                (length line ≤ length longest)%nat.
Proof.
  intros Hreply.
  destruct (extract_latest_reply_shape U content reply Hreply)
    as (ls & longest & -> & Hls & Hin & Hmax).
  assert (Hne : ls ≠ []) by (by apply (In_not_nil longest)).
  assert (Hclean : Forall (Forall (λ c, c ≠ NL)) ls).
  { apply List.Forall_forall. intros l Hl.
    rewrite List.Forall_forall in Hls. specialize (Hls l Hl).
    unfold filtered_lines in Hls. apply filter_In in Hls as [Hls _].
    pose proof (stripped_lines_clean U content) as Hc.
    rewrite List.Forall_forall in Hc. by apply Hc. }
  rewrite (split_on_join NL ls Hne Hclean).
  assert (Hline : ∀ line, In line ls →
    In line (stripped_lines U content) ∧ keeps_line U line = true
    ∧ (8 ≤ len line)%Z ∧ (3 ≤ len_list (split_ws U line))%Z).
  { intros line Hl. rewrite List.Forall_forall in Hls.
    specialize (Hls line Hl). unfold filtered_lines in Hls.
    apply filter_In in Hls as [Hl' Hkeep]. split; [done|]. split; [done|].
    unfold keeps_line in Hkeep.
    apply andb_prop in Hkeep as [[[[_ Hlen]%andb_prop Hw]%andb_prop _]%andb_prop _].
    unfold too_short in Hlen. unfold few_words in Hw.
    apply negb_true_iff in Hlen, Hw.
    apply orb_false_elim in Hw as [_ Hw].
    apply Z.ltb_ge in Hlen, Hw. done. }
  split; [|split; [exact Hline | by exists longest]].
  destruct ls as [|l ls]; [done|].
  destruct (Hline l (or_introl eq_refl)) as (_ & _ & Hlen & _).
  destruct l; [by vm_compute in Hlen|]. by destruct ls.
Qed.

Lemma extract_latest_reply_some_witness :
  lit Scenarios.hello ≠ []
  ∧ (∀ line, In line (split_on NL (lit Scenarios.hello)) →
       In line (stripped_lines plain_tables (lit Scenarios.hello))
       ∧ keeps_line plain_tables line = true
       ∧ (8 ≤ len line)%Z
       ∧ (3 ≤ len_list (split_ws plain_tables line))%Z)
  ∧ ∃ longest, In longest (split_on NL (lit Scenarios.hello))
      ∧ ∀ line, In line (filtered_lines plain_tables (lit Scenarios.hello)) →
                (length line ≤ length longest)%nat.
Proof.
  apply (extract_latest_reply_some plain_tables (lit Scenarios.hello)).
  vm_compute. reflexivity.
Defined.

Lemma filter_length_pos_iff {A} (f : A → bool) (l : list A) :
  (0 < length (List.filter f l))%nat ↔ ∃ x, In x l ∧ f x = true.
Proof.
  split.
  - destruct (List.filter f l) as [|x r] eqn:Hf; simpl; [lia|].
    intros _. exists x. apply filter_In. rewrite Hf. by left.
  - intros [x [Hx Hfx]]. by apply (filter_length_pos f l x).
Qed.

(** X7: against an empty old content, a new content is a meaningful
    change exactly when it has more than 10 characters once stripped.
    Against any other old content, it is one exactly when the new content
    has a line that the old content does not have and that has more than
    5 characters once stripped; so lines that are only removed, repeated
    or reordered are no change. *)
Theorem has_meaningful_change_iff (U : UnicodeTables) (old new : str) :
  (has_meaningful_change U [] new = true ↔ (10 < len (strip U new))%Z)
  ∧ (old ≠ [] →
     (has_meaningful_change U old new = true ↔
      ∃ line, In line (split_on NL new) ∧ ¬ In line (split_on NL old)
              ∧ (5 < len (strip U line))%Z)).
Proof.
  split.
  - destruct new as [|c r]; simpl; [|apply Z.ltb_lt].
    split; [discriminate|]. by intros H%Z.ltb_lt.
  - intros Hold. destruct old as [|c0 r0]; [done|].
    unfold has_meaningful_change, len_list.
    rewrite Z.ltb_lt, <- Nat2Z.inj_0, <- Nat2Z.inj_lt, filter_length_pos_iff.
    split.
    + intros (line & Hin & Hlen). exists line.
      apply list_elem_of_In, elem_of_elements, elem_of_difference in Hin
        as [Hnew Hnot].
      rewrite elem_of_list_to_set, list_elem_of_In in Hnew.
      rewrite elem_of_list_to_set, list_elem_of_In in Hnot.
      by apply Z.ltb_lt in Hlen.
    + intros (line & Hnew & Hnot & Hlen). exists line.
      split; [|by apply Z.ltb_lt].
      apply list_elem_of_In, elem_of_elements, elem_of_difference.
      by rewrite !elem_of_list_to_set, !list_elem_of_In.
Qed.

(** ** Delivery, further *)

Section TyperFacts2.
Variable U : UnicodeTables.
Variable E : Env.

(** X8: [type_message] always returns [True] or [False], whichever calls
    raise.  It returns [True] only for a message that is not blank, and
    then the last call made is the press of the enter key, which did not
    raise. *)
Theorem type_message_result (cfg : Config) (region : Z * Z * Z * Z)
    (message : str) (g : Gui) :
  let result := type_message U E cfg region message g in
  (result.1 = Some true ∨ result.1 = Some false)
  ∧ (result.1 = Some true →
     strip U message ≠ []
     ∧ ∃ before,
         calls result.2 = before ++ [Press "enter"]
         ∧ raises E (length before) = false).
Proof.
  cbv zeta.
  destruct (type_message U E cfg region message g) as [o g'] eqn:Hres.
  simpl. revert Hres. unfold type_message, try_except.
  destruct (is_empty message || is_empty (strip U message)) eqn:Hblank.
  { intros [= <- <-]. split; [by right | discriminate]. }
  assert (Hne : strip U message ≠ []).
  { apply orb_false_elim in Hblank as [_ H]. by destruct (strip U message). }
  unfold mbind at 1, M_bind at 1.
  destruct (_click_target_region E region g) as [[[|]|] g1];
    [| change (negb false) with true; intros [= <- <-];
       split; [by right | discriminate]
     | intros [= <- <-]; split; [by right | discriminate]].
  change (negb true) with false. cbv iota.
  unfold mbind at 1, M_bind at 1.
  destruct ((if use_clipboard cfg
                && _can_use_clipboard (_clean_message U cfg message)
             then _type_with_clipboard E (_clean_message U cfg message)
             else _type_character_by_character E
                    (_clean_message U cfg message)) g1) as [[[|]|] g2];
    [| intros [= <- <-]; split; [by right | discriminate]
     | intros [= <- <-]; split; [by right | discriminate]].
  unfold mbind, M_bind, do_call.
  destruct (raises E (length (calls g2))) eqn:Hraise; simpl.
  - intros [= <- <-]. split; [by right | discriminate].
  - intros [= <- <-]. split; [by left|]. intros _. split; [exact Hne|].
    exists (calls g2). split; [|exact Hraise].
    by destruct g2.
Qed.

End TyperFacts2.

Section ClickFacts.
Variable E : Env.

(** One attempt logs a click within 5 and 3 pixels of its position and
    then at most the two key presses. *)
Lemma click_once_log (pos : Z * Z) (g : Gui) :
  ∃ new,
    calls (click_once E pos g).2 = calls g ++ new
    ∧ Forall (λ c, match c with
                   | Click cx cy =>
                       (pos.1 - 5 ≤ cx ≤ pos.1 + 5)%Z
                       ∧ (pos.2 - 3 ≤ cy ≤ pos.2 + 3)%Z
                   | Press _ => True
                   | _ => False
                   end) new
    ∧ length (List.filter is_click new) = 1%nat.
Proof.
  pose proof (Z.mod_pos_bound (rand E (draws g)) 11 eq_refl) as Hx.
  pose proof (Z.mod_pos_bound (rand E (S (draws g))) 7 eq_refl) as Hy.
  unfold click_once, randint, mbind, M_bind, do_call. simpl.
  change (5 - -5 + 1)%Z with 11%Z. change (3 - -3 + 1)%Z with 7%Z.
  destruct (raises E (length (calls g))); simpl.
  { eexists. split; [reflexivity|]. split; [|reflexivity].
    repeat constructor; lia. }
  rewrite length_app. simpl.
  destruct (raises E (length (calls g) + 1)); simpl.
  { eexists. split; [rewrite <- app_assoc; reflexivity|].
    split; [|reflexivity]. repeat constructor; lia. }
  rewrite !length_app. simpl.
  destruct (raises E (length (calls g) + 1 + 1)); simpl.
  { eexists. split; [rewrite <- !app_assoc; reflexivity|].
    split; [|reflexivity]. repeat constructor; lia. }
  eexists. split; [rewrite <- !app_assoc; reflexivity|].
  split; [|reflexivity]. repeat constructor; lia.
Qed.

Lemma click_any_log (region : Z * Z * Z * Z) (positions : list (Z * Z))
    (g : Gui) :
  Forall (λ pos, let '(x, y, width, height) := region in
                 (x ≤ pos.1 ≤ x + width)%Z ∧ (y ≤ pos.2 ≤ y + height)%Z)
         positions →
  ∃ new,
    calls (click_any E positions g).2 = calls g ++ new
    ∧ Forall (near_region region) new
    ∧ (length (List.filter is_click new) ≤ length positions)%nat
    ∧ ((click_any E positions g).1 = Some true
       ∨ ((click_any E positions g).1 = Some false
          ∧ length (List.filter is_click new) = length positions)).
Proof.
  destruct region as [[[x y] width] height].
  intros Hpos. revert g.
  induction Hpos as [|pos positions [Hpx Hpy] _ IH]; intros g.
  - exists []. simpl. rewrite app_nil_r. repeat split; auto.
  - destruct (click_once_log pos g) as (new1 & Hcalls1 & Hnear1 & Hcount1).
    assert (Hnear : Forall (near_region (x, y, width, height)) new1).
    { eapply Forall_impl; [exact Hnear1|]. intros [cx cy| | | | |]; simpl;
        try done. lia. }
    simpl. unfold try_except, mbind, M_bind in *.
    destruct (click_once E pos g) as [[[]|] g1]; simpl in *.
    + exists new1. split; [done|]. split; [done|]. split; [lia|]. by left.
    + destruct (IH g1) as (new2 & Hcalls2 & Hnear2 & Hcount2 & Hres).
      exists (new1 ++ new2). rewrite Hcalls2, Hcalls1, <- app_assoc.
      split; [done|]. split; [by apply Forall_app|].
      rewrite List.filter_app, length_app.
      split; [lia|]. destruct Hres as [Ht|[Hf Hall]]; [by left|].
      right. split; [done | lia].
Qed.

Lemma tenths_bounds (k v : Z) :
  (0 ≤ k ≤ 10)%Z → (0 ≤ v)%Z → (0 ≤ tenths k v ≤ v)%Z.
Proof.
  intros Hk Hv. unfold tenths.
  rewrite Z.quot_div_nonneg by nia.
  split; [apply Z.div_pos; nia|].
  apply Z.div_le_upper_bound; nia.
Qed.

End ClickFacts.

(** X9: on a region of non-negative width and height,
    [_click_target_region] makes nothing but clicks and key presses, at
    most four clicks, each at most 5 pixels beside and 3 pixels above or
    below the region; it returns [True] or [False], and [False] only
    after four clicks. *)
Theorem click_target_region_log (E : Env) (x y width height : Z) (g : Gui) :
  (0 ≤ width)%Z → (0 ≤ height)%Z →
  let result := _click_target_region E (x, y, width, height) g in
  ∃ new,
    calls result.2 = calls g ++ new
    ∧ Forall (near_region (x, y, width, height)) new
    ∧ (length (List.filter is_click new) ≤ 4)%nat
    ∧ (result.1 = Some true
       ∨ (result.1 = Some false
          ∧ length (List.filter is_click new) = 4%nat)).
Proof.
  intros Hw Hh. cbv zeta. unfold _click_target_region.
  apply (click_any_log E (x, y, width, height)
           (click_positions (x, y, width, height)) g).
  pose proof (tenths_bounds 9 height) as H9.
  pose proof (tenths_bounds 8 height) as H8.
  pose proof (tenths_bounds 2 width) as H2.
  pose proof (tenths_bounds 8 width) as H8w.
  pose proof (Z.div_pos width 2 Hw eq_refl) as Hd.
  assert (width `div` 2 ≤ width)%Z
    by (apply Z.div_le_upper_bound; lia).
  unfold click_positions. repeat constructor; simpl; lia.
Qed.

Lemma click_target_region_log_witness :
  ∃ new,
    calls (_click_target_region calm (0, 0, 400, 300)%Z fresh_gui).2
    = calls fresh_gui ++ new
    ∧ Forall (near_region (0, 0, 400, 300)%Z) new
    ∧ (length (List.filter is_click new) ≤ 4)%nat
    ∧ ((_click_target_region calm (0, 0, 400, 300)%Z fresh_gui).1
       = Some true
       ∨ ((_click_target_region calm (0, 0, 400, 300)%Z fresh_gui).1
          = Some false
          ∧ length (List.filter is_click new) = 4%nat)).
Proof.
  apply (click_target_region_log calm 0 0 400 300 fresh_gui); lia.
Defined.

(** X10: when no call raises, the bulk mode succeeds, puts the message on
    the clipboard before it pastes, and afterwards the clipboard holds
    what it held before, unless it was empty before: then it is not
    restored and still holds the message. *)
Theorem type_with_clipboard_restores (E : Env) (text : str) (g : Gui) :
  (∀ n, raises E n = false) →
  let result := _type_with_clipboard E text g in
  result.1 = Some true
  ∧ calls result.2 = calls g ++ bulk_calls (clipboard g) text
  ∧ clipboard result.2
    = match clipboard g with
      | [] => text
      | _ :: _ => clipboard g
      end.
Proof.
  intros quiet. cbv zeta.
  unfold _type_with_clipboard, bulk_calls, try_except, paste, mbind, M_bind,
    mret, M_ret.
  destruct (clipboard g) as [|c0 r0] eqn:Hclip;
    repeat (rewrite ?(do_call_quiet E quiet); unfold record_call, effect;
            simpl; rewrite ?Hclip);
    rewrite <- ?app_assoc; done.
Qed.

Lemma type_with_clipboard_restores_witness :
  let g := {| calls := []; clipboard := lit "kept"; draws := 0 |} in
  (_type_with_clipboard calm (lit "message") g).1 = Some true
  ∧ calls (_type_with_clipboard calm (lit "message") g).2
    = calls g ++ bulk_calls (clipboard g) (lit "message")
  ∧ clipboard (_type_with_clipboard calm (lit "message") g).2 = lit "kept".
Proof.
  apply (type_with_clipboard_restores calm (lit "message")
           {| calls := []; clipboard := lit "kept"; draws := 0 |}).
  reflexivity.
Defined.

(** X11: a cleaned message holds no newline, tab or backspace (the
    maximum length taken non-negative), so the incremental mode types it
    with character writes only, never with a special key, and the choice
    of the bulk mode does not depend on its test for special keys. *)
Theorem clean_message_no_special_key (U : UnicodeTables) (cfg : Config)
    (message : str) :
  (0 ≤ max_message_length cfg)%Z →
  let cleaned := _clean_message U cfg message in
  Forall (λ c, special_keys c = None) cleaned
  ∧ incremental_calls cleaned
    = [Hotkey "ctrl" "a"; Press "delete"] ++ List.map Write cleaned
  ∧ _can_use_clipboard cleaned
    = (20 <=? len cleaned)%Z
      && ((3 * len cleaned <? 10 * len (List.filter is_cjk cleaned))%Z
          || (100 <? len cleaned)%Z).
Proof.
  intros Hmax cleaned.
  assert (Hkeys : Forall (λ c, special_keys c = None) cleaned).
  { eapply Forall_impl; [apply (clean_message_chars U cfg message Hmax)|].
    intros c [Hctl Hsp]. unfold special_keys.
    destruct (N.eqb_spec c NL) as [->|_].
    { by specialize (Hsp eq_refl). }
    destruct (N.eqb_spec c TAB) as [->|_].
    { by specialize (Hsp eq_refl). }
    destruct (N.eqb_spec c BS) as [->|_]; [discriminate|done]. }
  split; [exact Hkeys|]. split.
  - unfold incremental_calls. f_equal.
    induction Hkeys as [|c r Hc _ IH]; simpl; [done|].
    unfold char_call at 1. by rewrite Hc, IH.
  - unfold _can_use_clipboard. rewrite (Z.leb_antisym (len cleaned) 20).
    destruct (len cleaned <? 20)%Z; [done|]. simpl.
    assert (Hno : existsb
      (λ char, bool_decide (is_Some (special_keys char))) cleaned = false).
    { clear -Hkeys. induction Hkeys as [|c r Hc _ IH]; simpl; [done|].
      rewrite Hc, IH. reflexivity. }
    rewrite Hno.
    by destruct (_ <? _)%Z, (100 <? len cleaned)%Z.
Qed.

Lemma clean_message_no_special_key_witness :
  Forall (λ c, special_keys c = None)
    (_clean_message plain_tables default_config
       (lit "line one" ++ [NL; TAB; BS] ++ lit "line two")).
Proof.
  refine (proj1 (clean_message_no_special_key plain_tables default_config
                   (lit "line one" ++ [NL; TAB; BS] ++ lit "line two") _)).
  vm_compute. discriminate.
Defined.

(** ** Text extraction, further *)

Section CacheFacts.
Variable U : UnicodeTables.

Lemma cache_get_set (k v : str) (d : list (str * str)) :
  cache_get k (cache_set k v d) = Some v.
Proof.
  induction d as [|[k' v'] d IH]; simpl.
  - by rewrite bool_decide_eq_true_2.
  - destruct (bool_decide (k = k')) eqn:Hk; simpl.
    + by rewrite bool_decide_eq_true_2.
    + by rewrite Hk.
Qed.

Lemma cache_set_length (k v : str) (d : list (str * str)) :
  (length (cache_set k v d) ≤ S (length d))%nat.
Proof.
  induction d as [|[k' v'] d IH]; simpl; [lia|].
  destruct (bool_decide (k = k')); simpl; lia.
Qed.

Lemma cache_set_keys (k v : str) (d : list (str * str)) :
  NoDup (List.map fst d) → NoDup (List.map fst (cache_set k v d)).
Proof.
  induction d as [|[k' v'] d IH]; simpl.
  - intros _. apply NoDup_singleton.
  - intros [Hnot Hd]%NoDup_cons.
    destruct (bool_decide (k = k')) eqn:Hk; simpl.
    + apply bool_decide_eq_true in Hk as ->. by apply NoDup_cons.
    + apply bool_decide_eq_false in Hk.
      apply NoDup_cons. split; [|by apply IH].
      intros Hin. apply Hnot. clear -Hin Hk.
      induction d as [|[k2 v2] d IH]; simpl in *.
      * apply list_elem_of_In in Hin as [->|[]]. done.
      * destruct (bool_decide (k = k2)) eqn:Hk2; simpl in *.
        -- apply bool_decide_eq_true in Hk2 as ->.
           apply list_elem_of_In in Hin. apply list_elem_of_In.
           destruct Hin as [->|Hin]; [done|by right].
        -- apply list_elem_of_In in Hin. apply list_elem_of_In.
           destruct Hin as [<-|Hin]; [by left|right].
           apply list_elem_of_In, IH, list_elem_of_In, Hin.
Qed.

(** What one extraction keeps of the cache: its bound and that a hash is
    cached once. *)
Lemma extract_text_cache (p : Processor) (r : Reading) :
  (0 < cache_size_limit p)%nat →
  (length (text_cache p) ≤ cache_size_limit p)%nat →
  NoDup (List.map fst (text_cache p)) →
  cache_size_limit (extract_text U p r).2 = cache_size_limit p
  ∧ (length (text_cache (extract_text U p r).2) ≤ cache_size_limit p)%nat
  ∧ NoDup (List.map fst (text_cache (extract_text U p r).2)).
Proof.
  intros Hpos Hlen Hkeys. unfold extract_text.
  destruct (cache_get _ _); simpl; [done|].
  unfold _cache_text.
  destruct (Nat.leb_spec (cache_size_limit p) (length (text_cache p)))
    as [Hfull|Hroom].
  - destruct (text_cache p) as [|e d]; simpl in *; [lia|].
    split; [done|]. split.
    + etransitivity; [apply cache_set_length|]. lia.
    + apply cache_set_keys. by apply NoDup_cons in Hkeys as [_ ?].
  - simpl. split; [done|]. split; [|by apply cache_set_keys].
    etransitivity; [apply cache_set_length|]. lia.
Qed.

Lemma cache_get_set_other (k k' v : str) (d : list (str * str)) :
  k ≠ k' → cache_get k (cache_set k' v d) = cache_get k d.
Proof.
  intros Hk. induction d as [|[k2 v2] d IH]; simpl.
  - by rewrite bool_decide_eq_false_2.
  - destruct (bool_decide (k' = k2)) eqn:Hk2; simpl.
    + apply bool_decide_eq_true in Hk2 as <-.
      by rewrite !bool_decide_eq_false_2.
    + destruct (bool_decide (k = k2)); [done | exact IH].
Qed.

(** While the cache has room for the readings that come, none of them
    pushes a cached text out. *)
Lemma cache_kept (rs : list Reading) (p : Processor) (k text : str) :
  cache_get k (text_cache p) = Some text →
  (length (text_cache p) + length rs ≤ cache_size_limit p)%nat →
  cache_get k
    (text_cache (fold_left (λ q r, (extract_text U q r).2) rs p))
  = Some text.
Proof.
  revert p. induction rs as [|r rs IH]; intros p Hget Hroom; [done|].
  simpl in *. apply IH.
  - unfold extract_text.
    destruct (cache_get (_get_image_hash r) (text_cache p)) as [cached|]
      eqn:Hr; [done|].
    unfold _cache_text.
    destruct (Nat.leb_spec (cache_size_limit p) (length (text_cache p)));
      [lia|].
    simpl. rewrite cache_get_set_other; [done|]. congruence.
  - unfold extract_text.
    destruct (cache_get (_get_image_hash r) (text_cache p)) as [cached|];
      simpl; [lia|].
    unfold _cache_text.
    destruct (Nat.leb_spec (cache_size_limit p) (length (text_cache p)));
      [lia|].
    simpl. pose proof (cache_set_length (_get_image_hash r)
      (_post_process_text U (engines_text U p r)) (text_cache p)). lia.
Qed.

End CacheFacts.

(** X12: after a reading has gone through [extract_text], on a processor
    whose cache limit is positive (it is 1000 in every processor
    [__init__] makes), the next call of [extract_text], when its image has
    the same hash, gets the same text back and leaves the processor as it
    is, whatever the engines would read from that image: a hit does not
    consult them.  The same holds of a later call, after other readings
    have gone through, as long as the cache had room for all of them;
    beyond that the entry can have been pushed out. *)
Theorem extract_text_again (U : UnicodeTables) (p : Processor)
    (r r' : Reading) :
  (0 < cache_size_limit p)%nat →
  _get_image_hash r' = _get_image_hash r →
  let text := (extract_text U p r).1 in
  let p1 := (extract_text U p r).2 in
  extract_text U p1 r' = (text, p1)
  ∧ ∀ rs : list Reading,
      (length (text_cache p1) + length rs ≤ cache_size_limit p)%nat →
      let p2 := fold_left (λ q r, (extract_text U q r).2) rs p1 in
      extract_text U p2 r' = (text, p2).
Proof.
  intros Hpos Hhash. cbv zeta.
  assert (Hcached : cache_get (_get_image_hash r)
                      (text_cache (extract_text U p r).2)
                    = Some (extract_text U p r).1).
  { unfold extract_text.
    destruct (cache_get (_get_image_hash r) (text_cache p)) as [cached|]
      eqn:Hget; [done|].
    unfold _cache_text.
    destruct (Nat.leb_spec (cache_size_limit p) (length (text_cache p)))
      as [Hfull|Hroom].
    - destruct (text_cache p) as [|entry rest]; simpl in *; [lia|].
      by rewrite cache_get_set.
    - simpl. by rewrite cache_get_set. }
  assert (Hlimit : cache_size_limit (extract_text U p r).2
                   = cache_size_limit p).
  { clear Hcached. unfold extract_text, _cache_text.
    destruct (cache_get _ _); simpl; [done|].
    destruct (_ <=? _)%nat; [|done]. by destruct (text_cache p). }
  split.
  - unfold extract_text at 1. by rewrite Hhash, Hcached.
  - intros rs Hroom. unfold extract_text at 1. rewrite Hhash.
    rewrite (cache_kept U rs _ _ _ Hcached); [done|].
    by rewrite Hlimit.
Qed.

Lemma extract_text_again_witness :
  let text := (extract_text plain_tables Scenarios.processor
                 (Scenarios.sees 1 Scenarios.hello)).1 in
  let p1 := (extract_text plain_tables Scenarios.processor
               (Scenarios.sees 1 Scenarios.hello)).2 in
  let r' := {| png_md5 := Some [1]; timestamp := []; readtext := None;
               image_to_string := None; image_to_data_text := [];
               image_to_data_conf := None |} in
  extract_text plain_tables p1 r' = (text, p1)
  ∧ ∀ rs : list Reading,
      (length (text_cache p1) + length rs
       ≤ cache_size_limit Scenarios.processor)%nat →
      let p2 := fold_left (λ q r, (extract_text plain_tables q r).2) rs p1 in
      extract_text plain_tables p2 r' = (text, p2).
Proof.
  apply (extract_text_again plain_tables Scenarios.processor
           (Scenarios.sees 1 Scenarios.hello)).
  - vm_compute. lia.
  - reflexivity.
Defined.

(** X13: from a fresh processor, after any sequence of extractions, the
    cache holds at most 1000 texts, and no image hash twice. *)
Theorem text_cache_bounded (U : UnicodeTables) (threshold : Z)
    (easyocr_starts tesseract_found : bool) (rs : list Reading) :
  let p := fold_left (λ q r, (extract_text U q r).2) rs
             (init threshold easyocr_starts tesseract_found) in
  (length (text_cache p) ≤ 1000)%nat
  ∧ NoDup (List.map fst (text_cache p)).
Proof.
  cbv zeta.
  assert (Hrun : ∀ q,
    cache_size_limit q = 1000%nat →
    (length (text_cache q) ≤ 1000)%nat →
    NoDup (List.map fst (text_cache q)) →
    (length (text_cache
       (fold_left (λ q r, (extract_text U q r).2) rs q)) ≤ 1000)%nat
    ∧ NoDup (List.map fst (text_cache
       (fold_left (λ q r, (extract_text U q r).2) rs q)))).
  { induction rs as [|r rs IH]; intros q Hlimit Hlen Hkeys; simpl; [done|].
    destruct (extract_text_cache U q r) as (H1 & H2 & H3);
      [lia | lia | done |].
    apply IH; [congruence | lia | done]. }
  apply Hrun; [reflexivity | simpl; lia | constructor].
Qed.

Section StripFacts.
Variable U : UnicodeTables.

Lemma lstrip_lstrip (s : str) : lstrip U (lstrip U s) = lstrip U s.
Proof.
  induction s as [|c r IH]; simpl; [done|].
  destruct (isspace U c) eqn:Hc; [exact IH|]. simpl. by rewrite Hc.
Qed.

Lemma lstrip_keeps_last (l : str) (c : N) :
  isspace U c = false → lstrip U (l ++ [c]) = lstrip U l ++ [c].
Proof.
  intros Hc. induction l as [|a l IH]; simpl.
  - by rewrite Hc.
  - by destruct (isspace U a).
Qed.

Lemma rstrip_rstrip (s : str) : rstrip U (rstrip U s) = rstrip U s.
Proof.
  unfold rstrip. by rewrite rev_involutive, lstrip_lstrip.
Qed.

(** Stripping the right end leaves a left end that needs no
    stripping as it is. *)
Lemma lstrip_rstrip (s : str) :
  lstrip U s = s → lstrip U (rstrip U s) = rstrip U s.
Proof.
  destruct s as [|c r]; [done|]. simpl.
  destruct (isspace U c) eqn:Hc.
  - intros H. pose proof (length_lstrip U r) as Hlen.
    rewrite H in Hlen. simpl in Hlen. lia.
  - intros _. unfold rstrip. simpl.
    rewrite lstrip_keeps_last by done.
    rewrite rev_app_distr. simpl. by rewrite Hc.
Qed.

(** Stripping twice is stripping once. *)
Lemma strip_strip (s : str) : strip U (strip U s) = strip U s.
Proof.
  unfold strip.
  rewrite (lstrip_rstrip (lstrip U s)) by apply lstrip_lstrip.
  apply rstrip_rstrip.
Qed.

End StripFacts.

(** X14: the text [_post_process_text] returns holds only characters of
    its allow list (word characters, U+4E00 to U+9FFF and the listed
    punctuation) and spaces; it has no white space but the plain space
    and none at either end. *)
Theorem post_process_text_clean (U : UnicodeTables) (text : str) :
  let processed := _post_process_text U text in
  Forall (λ c, allowed_char U c = true) processed
  ∧ Forall (λ c, isspace U c = true → c = SP) processed
  ∧ strip U processed = processed.
Proof.
  cbv zeta. unfold _post_process_text.
  destruct text as [|c0 r0]; [by repeat split|].
  split; [|split].
  - apply Forall_strip, Forall_filter_true.
  - apply Forall_strip, Forall_filter_in, collapse_ws_go_spaces.
  - apply strip_strip.
Qed.

Section EngineFacts.
Variable U : UnicodeTables.

Lemma extract_text_flags (p : Processor) (r : Reading) :
  easyocr_reader (extract_text U p r).2 = easyocr_reader p
  ∧ tesseract_available (extract_text U p r).2 = tesseract_available p.
Proof.
  unfold extract_text, _cache_text.
  destruct (cache_get _ _); [done|]. simpl.
  destruct (_ <=? _)%nat; [|done]. by destruct (text_cache p).
Qed.

Lemma run_flags (p : Processor) (rs : list Reading) :
  easyocr_reader (fold_left (λ q r, (extract_text U q r).2) rs p)
  = easyocr_reader p
  ∧ tesseract_available (fold_left (λ q r, (extract_text U q r).2) rs p)
    = tesseract_available p.
Proof.
  revert p. induction rs as [|r rs IH]; intros p; simpl; [done|].
  destruct (IH (extract_text U p r).2) as [-> ->].
  apply extract_text_flags.
Qed.

End EngineFacts.

(** X15: in a processor whose EasyOCR reader started, Tesseract was never
    probed, so it is never consulted, not even when EasyOCR reads nothing:
    after any sequence of extractions, two readings that agree on the
    image hash and on what EasyOCR reads give the same result, whatever
    Tesseract would read. *)
Theorem tesseract_never_consulted (U : UnicodeTables) (threshold : Z)
    (tesseract_found : bool) (rs : list Reading) (r r' : Reading) :
  png_md5 r' = png_md5 r →
  timestamp r' = timestamp r →
  readtext r' = readtext r →
  let p := fold_left (λ q r, (extract_text U q r).2) rs
             (init threshold true tesseract_found) in
  extract_text U p r' = extract_text U p r.
Proof.
  intros Hmd5 Htime Hread. cbv zeta.
  destruct (run_flags U (init threshold true tesseract_found) rs)
    as [He Ht].
  simpl in He, Ht.
  remember (fold_left _ rs _) as p eqn:Hp. clear Hp.
  unfold extract_text, _get_image_hash, engines_text,
    _extract_with_easyocr.
  by rewrite Hmd5, Htime, Hread, He, Ht.
Qed.

Lemma tesseract_never_consulted_witness :
  extract_text plain_tables (init 60 true true)
    {| png_md5 := Some [7]; timestamp := []; readtext := Some [];
       image_to_string := Some (lit "text only Tesseract sees");
       image_to_data_text := []; image_to_data_conf := Some [90%Z] |}
  = extract_text plain_tables (init 60 true true)
      {| png_md5 := Some [7]; timestamp := []; readtext := Some [];
         image_to_string := None;
         image_to_data_text := []; image_to_data_conf := None |}.
Proof.
  apply (tesseract_never_consulted plain_tables 60 true []); reflexivity.
Defined.

(** X16: [detect_language] answers "unknown" exactly for a text without
    any Latin letter and any ideograph of U+4E00 to U+9FFF; a text with a
    Latin letter and no such ideograph is "en", one with such an ideograph
    and no Latin letter is "zh"; digits, spaces and punctuation do not
    count. *)
Theorem detect_language_cases (text : str) :
  let chinese := length (List.filter (between 0x4e00 0x9fff) text) in
  let english := length (List.filter is_latin_letter text) in
  (detect_language text = "unknown"%string ↔
   chinese = 0%nat ∧ english = 0%nat)
  ∧ (chinese = 0%nat → (0 < english)%nat →
     detect_language text = "en"%string)
  ∧ (english = 0%nat → (0 < chinese)%nat →
     detect_language text = "zh"%string).
Proof.
  cbv zeta. unfold detect_language, len.
  destruct text as [|c0 r0]; [simpl; split; [done|split; lia]|].
  remember (c0 :: r0) as t eqn:Ht. clear Ht.
  set (c := length (List.filter (between 19968 40959) t)).
  set (e := length (List.filter is_latin_letter t)).
  destruct (Z.eqb_spec (Z.of_nat c + Z.of_nat e) 0) as [Hz|Hnz].
  { split; [split; [lia|done]|]. split; lia. }
  destruct (Z.ltb_spec (7 * (Z.of_nat c + Z.of_nat e)) (10 * Z.of_nat c))
    as [Hzh|Hnzh].
  { split; [split; [discriminate|lia]|]. split; [lia|done]. }
  destruct (Z.ltb_spec (10 * Z.of_nat c) (3 * (Z.of_nat c + Z.of_nat e)))
    as [Hen|Hnen].
  { split; [split; [discriminate|lia]|]. split; [done|lia]. }
  split; [split; [discriminate|lia]|]. split; lia.
Qed.

(** ** The message store, further *)

Section StoreFacts.
Variable md5_hex : str → str.

(** X17: [add_message] loses nothing and reorders nothing: the rows of
    the table followed by the cached messages are afterwards what they
    were, with the new message at the end when the answer is [True], and
    unchanged when it is [False]. *)
Theorem add_message_keeps (db_up : bool) (m : Manager)
    (session a b text : str) :
  let result := add_message md5_hex db_up m session a b text in
  messages result.2 ++ message_cache result.2
  = messages m ++ message_cache m
    ++ (if result.1
        then [ {| session_id := session; sender := a; recipient := b;
                  content := text; message_hash := md5_hex text |} ]
        else [])
  ∧ auto_save result.2 = auto_save m.
Proof.
  cbv zeta. unfold add_message, calculate_message_hash.
  destruct (encodes text); simpl; [|by rewrite app_nil_r].
  destruct (is_duplicate_message db_up m session (md5_hex text)); simpl.
  { by rewrite app_nil_r. }
  destruct (auto_save m) eqn:Hauto; simpl; [|done].
  unfold save_cached_messages. simpl.
  destruct (message_cache m ++ _) as [|row rows] eqn:Hcache.
  { by destruct (message_cache m). }
  destruct db_up; simpl; rewrite <- ?Hcache, ?app_nil_r; done.
Qed.

(** X18: with auto-save on, the database up and nothing waiting in the
    cache, a content that encodes as UTF-8 and is new for the session is
    stored once: the first [add_message] answers [True], a second one with
    the same content answers [False] and changes nothing, whoever the
    sender is, and the table then holds exactly one row of that session
    with that hash. *)
Theorem add_message_once (m : Manager) (session a b a' b' text : str) :
  encodes text = true →
  auto_save m = true →
  message_cache m = [] →
  is_duplicate_message true m session (md5_hex text) = false →
  let first := add_message md5_hex true m session a b text in
  first.1 = true
  ∧ add_message md5_hex true first.2 session a' b' text = (false, first.2)
  ∧ length (List.filter
              (λ row, bool_decide (session_id row = session)
                      && bool_decide (message_hash row = md5_hex text))
              (messages first.2)) = 1%nat.
Proof.
  intros Henc Hauto Hcache Hnew. cbv zeta.
  assert (Hfirst : add_message md5_hex true m session a b text
    = (true, {| auto_save := true; message_cache := [];
                messages := messages m
                  ++ [ {| session_id := session; sender := a;
                          recipient := b; content := text;
                          message_hash := md5_hex text |} ] |})).
  { unfold add_message, calculate_message_hash. rewrite Henc, Hnew. simpl.
    rewrite Hauto, Hcache. reflexivity. }
  rewrite Hfirst. simpl.
  assert (Hcount : length (List.filter
              (λ row, bool_decide (session_id row = session)
                      && bool_decide (message_hash row = md5_hex text))
              (messages m)) = 0%nat).
  { unfold is_duplicate_message in Hnew. apply Nat.ltb_ge in Hnew. lia. }
  assert (Hone : length (List.filter
              (λ row, bool_decide (session_id row = session)
                      && bool_decide (message_hash row = md5_hex text))
              (messages m
                 ++ [ {| session_id := session; sender := a;
                         recipient := b; content := text;
                         message_hash := md5_hex text |} ])) = 1%nat).
  { rewrite List.filter_app, length_app, Hcount. simpl.
    by rewrite !bool_decide_eq_true_2. }
  split; [done|]. split; [|exact Hone].
  unfold add_message, calculate_message_hash, is_duplicate_message.
  rewrite Henc. simpl.
  by rewrite Hone.
Qed.

(** X19: the duplicate check looks at the table only.  With auto-save
    off, or while the database does not answer, a content that encodes as
    UTF-8 and is not in the table is accepted every time it is added: both
    of two additions answer [True] and both messages wait in the cache. *)
Theorem add_message_twice_cached (db_up : bool) (m : Manager)
    (session a b text : str) :
  encodes text = true →
  auto_save m = false ∨ db_up = false →
  is_duplicate_message db_up m session (md5_hex text) = false →
  let first := add_message md5_hex db_up m session a b text in
  let second := add_message md5_hex db_up first.2 session a b text in
  first.1 = true ∧ second.1 = true
  ∧ messages second.2 = messages m
  ∧ message_cache second.2
    = message_cache m
      ++ [ {| session_id := session; sender := a; recipient := b;
              content := text; message_hash := md5_hex text |};
           {| session_id := session; sender := a; recipient := b;
              content := text; message_hash := md5_hex text |} ].
Proof.
  intros Henc Hmode Hnew. cbv zeta.
  assert (Hkeep : ∀ m0, auto_save m0 = auto_save m →
    (if auto_save m0 then save_cached_messages db_up m0 else m0) = m0).
  { intros m0 Hsame. destruct Hmode as [Hoff| ->].
    - by rewrite Hsame, Hoff.
    - destruct (auto_save m0); [|done]. unfold save_cached_messages.
      by destruct (message_cache m0). }
  assert (Hfirst : add_message md5_hex db_up m session a b text
    = (true, {| auto_save := auto_save m;
                message_cache := message_cache m
                  ++ [ {| session_id := session; sender := a;
                          recipient := b; content := text;
                          message_hash := md5_hex text |} ];
                messages := messages m |})).
  { unfold add_message, calculate_message_hash. rewrite Henc, Hnew.
    by rewrite Hkeep. }
  rewrite Hfirst. simpl.
  unfold add_message, calculate_message_hash. rewrite Henc.
  change (is_duplicate_message db_up
            {| auto_save := auto_save m;
               message_cache := message_cache m
                 ++ [ {| session_id := session; sender := a;
                         recipient := b; content := text;
                         message_hash := md5_hex text |} ];
               messages := messages m |} session (md5_hex text))
    with (is_duplicate_message db_up m session (md5_hex text)).
  rewrite Hnew. rewrite Hkeep by done. simpl.
  by rewrite <- app_assoc.
Qed.

(** X27: a content that does not encode as UTF-8 (it holds a surrogate
    code point) is never stored: hashing it raises, [add_message] answers
    [False] and the store stays as it is, whether or not the database
    answers and whatever it holds. *)
Theorem add_message_unencodable (db_up : bool) (m : Manager)
    (session a b text : str) :
  encodes text = false →
  add_message md5_hex db_up m session a b text = (false, m).
Proof.
  intros Henc. unfold add_message, calculate_message_hash.
  by rewrite Henc.
Qed.

End StoreFacts.

Lemma add_message_once_witness :
  let first := add_message (λ text, text) true empty_manager
                 (lit "session") (lit "left") (lit "right")
                 (lit "hello") in
  first.1 = true
  ∧ add_message (λ text, text) true first.2
      (lit "session") (lit "right") (lit "left") (lit "hello")
    = (false, first.2)
  ∧ length (List.filter
              (λ row, bool_decide (session_id row = lit "session")
                      && bool_decide (message_hash row = lit "hello"))
              (messages first.2)) = 1%nat.
Proof.
  apply (add_message_once (λ text, text) empty_manager); reflexivity.
Defined.

Lemma add_message_twice_cached_witness :
  let m := {| auto_save := false; message_cache := []; messages := [] |} in
  let first := add_message (λ text, text) true m
                 (lit "session") (lit "left") (lit "right")
                 (lit "hello") in
  let second := add_message (λ text, text) true first.2
                  (lit "session") (lit "left") (lit "right")
                  (lit "hello") in
  first.1 = true ∧ second.1 = true
  ∧ messages second.2 = messages m
  ∧ message_cache second.2
    = message_cache m
      ++ [ {| session_id := lit "session"; sender := lit "left";
              recipient := lit "right"; content := lit "hello";
              message_hash := lit "hello" |};
           {| session_id := lit "session"; sender := lit "left";
              recipient := lit "right"; content := lit "hello";
              message_hash := lit "hello" |} ].
Proof.
  apply (add_message_twice_cached (λ text, text) true
           {| auto_save := false; message_cache := []; messages := [] |});
    [reflexivity | by left | reflexivity].
Defined.

Lemma add_message_unencodable_witness :
  add_message (λ text, text) true empty_manager
    (lit "session") (lit "left") (lit "right") (lit "hello" ++ [0xd83d])
  = (false, empty_manager).
Proof.
  apply (add_message_unencodable (λ text, text) true empty_manager).
  reflexivity.
Defined.

(** ** The configuration *)

Section ConfigFacts.
Variable atom : Type.
Local Abbreviation value := (ConfigManager.value atom).
Local Abbreviation dict := (list (str * ConfigManager.value atom)).
Local Abbreviation dict_get := (ConfigManager.dict_get atom).
Local Abbreviation dict_set := (ConfigManager.dict_set atom).
Local Abbreviation get_path := (ConfigManager.get_path atom).
Local Abbreviation set_path := (ConfigManager.set_path atom).

Lemma dict_get_set (k : str) (v : value) (d : dict) :
  dict_get k (dict_set k v d) = Some v.
Proof.
  induction d as [|[k' v'] d IH]; simpl.
  - by rewrite bool_decide_eq_true_2.
  - destruct (bool_decide (k = k')) eqn:Hk; simpl.
    + by rewrite bool_decide_eq_true_2.
    + by rewrite Hk.
Qed.

Lemma dict_get_set_other (k k' : str) (v : value) (d : dict) :
  k ≠ k' → dict_get k' (dict_set k v d) = dict_get k' d.
Proof.
  intros Hne. induction d as [|[k2 v2] d IH]; simpl.
  - by rewrite bool_decide_eq_false_2.
  - destruct (bool_decide (k = k2)) eqn:Hk; simpl.
    + apply bool_decide_eq_true in Hk as <-.
      by rewrite !bool_decide_eq_false_2.
    + by rewrite IH.
Qed.

Lemma get_path_empty (keys : list str) :
  keys ≠ [] → get_path keys (ConfigManager.Dict []) = None.
Proof. by destruct keys. Qed.


Lemma set_path_step (k k2 : str) (rest2 : list str) (v : value)
    (config : dict) :
  set_path (k :: k2 :: rest2) v config
  = match dict_get k config with
    | None =>
        match set_path (k2 :: rest2) v [] with
        | Some sub => Some (dict_set k (ConfigManager.Dict sub) config)
        | None => None
        end
    | Some (ConfigManager.Dict below) =>
        match set_path (k2 :: rest2) v below with
        | Some sub => Some (dict_set k (ConfigManager.Dict sub) config)
        | None => None
        end
    | Some (ConfigManager.Atom _) => None
    end.
Proof. reflexivity. Qed.

Lemma get_path_step (k : str) (rest : list str) (d : dict) :
  get_path (k :: rest) (ConfigManager.Dict d)
  = match dict_get k d with
    | Some w => get_path rest w
    | None => None
    end.
Proof. reflexivity. Qed.

(** [set] raises exactly when a proper beginning of the key path leads to
    a value that is no dictionary. *)
Lemma set_path_fails (keys : list str) (v : value) (config : dict) :
  keys ≠ [] →
  (set_path keys v config = None ↔
   ∃ proper a, ConfigManager.proper_prefix proper keys
               ∧ get_path proper (ConfigManager.Dict config)
                 = Some (ConfigManager.Atom a)).
Proof.
  revert config. induction keys as [|k rest IH]; intros config Hne; [done|].
  destruct rest as [|k2 rest2].
  - simpl. split; [discriminate|].
    intros (proper & a & (over & Hover & Heq) & Hget).
    destruct proper as [|p proper]; [discriminate|].
    destruct proper; destruct over; try done; discriminate.
  - rewrite set_path_step.
    assert (Hsub : ∀ below,
      (∃ proper a, ConfigManager.proper_prefix proper (k2 :: rest2)
                   ∧ get_path proper (ConfigManager.Dict below)
                     = Some (ConfigManager.Atom a))
      → dict_get k config = Some (ConfigManager.Dict below)
      → ∃ proper a,
          ConfigManager.proper_prefix proper (k :: k2 :: rest2)
          ∧ get_path proper (ConfigManager.Dict config)
            = Some (ConfigManager.Atom a)).
    { intros below (proper & a & (over & Hover & Heq) & Hget) Hk.
      exists (k :: proper), a. split.
      - exists over. split; [done|]. simpl. by rewrite Heq.
      - by rewrite get_path_step, Hk. }
    destruct (dict_get k config) as [[below|a]|] eqn:Hk.
    + specialize (IH below (ltac:(done))).
      destruct (set_path (k2 :: rest2) v below) as [sub|] eqn:Hset.
      * split; [discriminate|].
        intros (proper & a & (over & Hover & Heq) & Hget).
        destruct proper as [|p proper]; [discriminate|].
        injection Heq as <- Heq.
        rewrite get_path_step, Hk in Hget.
        assert (Hnone : Some sub = None); [|discriminate].
        apply IH. exists proper, a. split; [by exists over | done].
      * split; [|done]. intros _. apply (Hsub below); [|done].
        by apply IH.
    + split; [|done]. intros _. exists [k], a. split.
      * exists (k2 :: rest2). by split.
      * by rewrite get_path_step, Hk.
    + specialize (IH [] (ltac:(done))).
      destruct (set_path (k2 :: rest2) v []) as [sub|] eqn:Hset.
      * split; [discriminate|].
        intros (proper & a & (over & Hover & Heq) & Hget).
        destruct proper as [|p proper]; [discriminate|].
        injection Heq as <- Heq.
        by rewrite get_path_step, Hk in Hget.
      * exfalso. destruct IH as [IH _].
        destruct (IH eq_refl) as (proper & a & _ & Hget).
        destruct proper as [|p proper]; [discriminate|].
        by rewrite get_path_empty in Hget.
Qed.

End ConfigFacts.

Section ConfigFacts2.
Variable atom : Type.
Local Abbreviation value := (ConfigManager.value atom).
Local Abbreviation dict := (list (str * ConfigManager.value atom)).
Local Abbreviation dict_get := (ConfigManager.dict_get atom).
Local Abbreviation dict_set := (ConfigManager.dict_set atom).
Local Abbreviation get_path := (ConfigManager.get_path atom).
Local Abbreviation set_path := (ConfigManager.set_path atom).

Lemma split_on_not_nil (sep : N) (s : str) : split_on sep s ≠ [].
Proof.
  destruct s as [|c r]; simpl; [done|].
  destruct (c =? sep); [done|]. by destruct (split_on sep r).
Qed.


(** X21: when a proper beginning of the dotted key names a value that is
    no dictionary, [set] changes nothing: the configuration is afterwards
    what it was. *)
Theorem set_through_leaf (config : dict) (key : str) (v : value)
    (proper : list str) (a : atom) :
  ConfigManager.proper_prefix proper (split_on 46 key) →
  get_path proper (ConfigManager.Dict config)
  = Some (ConfigManager.Atom a) →
  ConfigManager.set atom config key v = config.
Proof.
  intros Hp Hget. unfold ConfigManager.set.
  assert (Hnone : set_path (split_on 46 key) v config = None).
  { apply set_path_fails; [apply split_on_not_nil|]. by exists proper, a. }
  by rewrite Hnone.
Qed.

Lemma merge_config_step (default : dict) (key : str) (v : value)
    (rest : dict) :
  ConfigManager._merge_config atom default ((key, v) :: rest)
  = ConfigManager._merge_config atom
      (dict_set key (ConfigManager.merged_entry atom default key v) default)
      rest.
Proof.
  unfold ConfigManager._merge_config, ConfigManager.merged_entry. simpl.
  destruct (dict_get key default) as [[below|x]|]; try reflexivity.
  by destruct v.
Qed.

Lemma dict_get_absent (key : str) (d : dict) :
  ¬ In key (List.map fst d) → dict_get key d = None.
Proof.
  induction d as [|[k v] d IH]; simpl; [done|].
  intros Hnot. rewrite bool_decide_eq_false_2 by (intros ->; apply Hnot; by left).
  apply IH. intros Hin. apply Hnot. by right.
Qed.

(** X23: [_merge_config] key by key, for a user dictionary (its keys are
    distinct): a key the user does not have keeps the default; a key the
    user has gets the user's value, except that where both the default
    and the user hold a dictionary the two are merged in the same way. *)
Theorem merge_config_lookup (default user : dict) (key : str) :
  List.NoDup (List.map fst user) →
  dict_get key (ConfigManager._merge_config atom default user)
  = match dict_get key user with
    | None => dict_get key default
    | Some v => Some (ConfigManager.merged_entry atom default key v)
    end.
Proof.
  revert default. induction user as [|[k v] user IH]; intros default Hkeys.
  - reflexivity.
  - inversion Hkeys as [|? ? Hnot Hrest]; subst.
    rewrite merge_config_step, IH by done. simpl.
    destruct (bool_decide (key = k)) eqn:Hk.
    + apply bool_decide_eq_true in Hk as ->.
      by rewrite (dict_get_absent k user Hnot), dict_get_set.
    + apply bool_decide_eq_false in Hk.
      unfold ConfigManager.merged_entry.
      by rewrite dict_get_set_other.
Qed.

End ConfigFacts2.


Lemma set_through_leaf_witness :
  ConfigManager.set Z Scenarios.sample_config (lit "ocr.engine.name")
    (ConfigManager.Atom 7%Z)
  = Scenarios.sample_config.
Proof.
  apply (set_through_leaf Z Scenarios.sample_config (lit "ocr.engine.name")
           (ConfigManager.Atom 7%Z) [lit "ocr"; lit "engine"] 1%Z).
  - exists [lit "name"]. split; [discriminate | reflexivity].
  - reflexivity.
Defined.

Lemma merge_config_lookup_witness :
  ConfigManager.dict_get Z (lit "ocr")
    (ConfigManager._merge_config Z Scenarios.sample_config
       [ (lit "ocr",
          ConfigManager.Dict [ (lit "engine", ConfigManager.Atom 5%Z) ]) ])
  = Some (ConfigManager.Dict
            [ (lit "engine", ConfigManager.Atom 5%Z);
              (lit "confidence_threshold", ConfigManager.Atom 60%Z) ]).
Proof.
  apply (merge_config_lookup Z Scenarios.sample_config
           [ (lit "ocr",
              ConfigManager.Dict [ (lit "engine", ConfigManager.Atom 5%Z) ]) ]
           (lit "ocr")).
  constructor; [intros [] | constructor].
Defined.

(** ** The configuration, with shared dictionaries *)

Section ConfigStoreFacts.
Variable atom : Type.
Local Abbreviation value := (ConfigStore.value atom).
Local Abbreviation object := (list (str * ConfigStore.value atom)).
Local Abbreviation heap := (list (list (str * ConfigStore.value atom))).
Local Abbreviation dict_get := (ConfigStore.dict_get atom).
Local Abbreviation dict_set := (ConfigStore.dict_set atom).
Local Abbreviation write := (ConfigStore.write atom).
Local Abbreviation get_path := (ConfigStore.get_path atom).
Local Abbreviation set_path := (ConfigStore.set_path atom).
Local Abbreviation Ref := (@ConfigStore.Ref atom).
Local Abbreviation closed := (ConfigStore.closed atom).
Local Abbreviation unshared := (ConfigStore.unshared atom).
Local Abbreviation Atom := (@ConfigStore.Atom atom).

Lemma store_get_set (k : str) (v : value) (d : object) :
  dict_get k (dict_set k v d) = Some v.
Proof.
  induction d as [|[k' v'] d IH]; simpl.
  - by rewrite bool_decide_eq_true_2.
  - destruct (bool_decide (k = k')) eqn:Hk; simpl.
    + by rewrite bool_decide_eq_true_2.
    + by rewrite Hk.
Qed.

Lemma store_get_set_other (k k' : str) (v : value) (d : object) :
  k ≠ k' → dict_get k (dict_set k' v d) = dict_get k d.
Proof.
  intros Hk. induction d as [|[k2 v2] d IH]; simpl.
  - by rewrite bool_decide_eq_false_2.
  - destruct (bool_decide (k' = k2)) eqn:Hk2; simpl.
    + apply bool_decide_eq_true in Hk2 as <-.
      by rewrite !bool_decide_eq_false_2.
    + destruct (bool_decide (k = k2)); [done | exact IH].
Qed.

Lemma write_length (l : nat) (k : str) (v : value) (h : heap) :
  length (write l k v h) = length h.
Proof.
  unfold write. destruct (h !! l); [apply length_insert | done].
Qed.

Lemma write_other (l l0 : nat) (k : str) (v : value) (h : heap) :
  l0 ≠ l → write l k v h !! l0 = h !! l0.
Proof.
  intros Hl. unfold write. destruct (h !! l); [|done].
  by apply list_lookup_insert_ne.
Qed.

Lemma write_same (l : nat) (k : str) (v : value) (h : heap) (d : object) :
  h !! l = Some d → write l k v h !! l = Some (dict_set k v d).
Proof.
  intros Hd. unfold write. rewrite Hd.
  apply list_lookup_insert_eq. by eapply lookup_lt_Some.
Qed.

(** Writing along a path from an empty dictionary touches that dictionary
    and dictionaries made on the way, nothing else. *)
Lemma set_path_empty_frame (keys : list str) (v : value) (h : heap)
    (l l0 : nat) :
  h !! l = Some [] → l0 ≠ l → (l0 < length h)%nat →
  set_path h l keys v !! l0 = h !! l0.
Proof.
  revert h l. induction keys as [|k rest IH]; intros h l Hl Hne Hlt; [done|].
  simpl. destruct rest as [|k2 rest]; [by apply write_other|].
  rewrite Hl. cbn [ConfigStore.dict_get].
  assert (Hlen : (l < length h)%nat) by (by eapply lookup_lt_Some).
  rewrite IH.
  - rewrite write_other by done. apply lookup_app_l. done.
  - rewrite write_other by lia. rewrite lookup_app_r by lia.
    by rewrite Nat.sub_diag.
  - lia.
  - rewrite write_length, length_app. simpl. lia.
Qed.

Lemma app_cons_not_nil' {A} (l : list A) (x : A) (r : list A) :
  l ++ x :: r ≠ [].
Proof. by destruct l. Qed.

(** The step of [set_path] that makes a dictionary under a missing key. *)
Lemma set_path_create (k : str) (rest : list str) (v : value) (h : heap)
    (l : nat) (d : object) :
  rest ≠ [] → h !! l = Some d → dict_get k d = None →
  set_path h l (k :: rest) v
  = set_path (write l k (Ref (length h)) (h ++ [[]])) (length h) rest v
  ∧ write l k (Ref (length h)) (h ++ [[]]) !! length h = Some []
  ∧ write l k (Ref (length h)) (h ++ [[]]) !! l
    = Some (dict_set k (Ref (length h)) d)
  ∧ length (write l k (Ref (length h)) (h ++ [[]])) = S (length h).
Proof.
  intros Hrest Hl Hk.
  assert (Hlen : (l < length h)%nat) by (by eapply lookup_lt_Some).
  split; [destruct rest; [done|]; simpl; by rewrite Hl, Hk|].
  split; [|split].
  - rewrite write_other by lia. rewrite lookup_app_r by lia.
    by rewrite Nat.sub_diag.
  - apply write_same. by rewrite lookup_app_l.
  - rewrite write_length, length_app. simpl. lia.
Qed.

(** The step of [set_path] into a dictionary that is there. *)
Lemma set_path_below (k : str) (rest : list str) (v : value) (h : heap)
    (l below : nat) (d : object) :
  rest ≠ [] → h !! l = Some d → dict_get k d = Some (Ref below) →
  set_path h l (k :: rest) v = set_path h below rest v.
Proof.
  intros Hrest Hl Hk. destruct rest; [done|]. simpl. by rewrite Hl, Hk.
Qed.

(** The step of [set_path] that meets a value that is no dictionary, or
    starts from an address that holds none. *)
Lemma set_path_stuck (k : str) (rest : list str) (v : value) (h : heap)
    (l : nat) :
  rest ≠ [] →
  h !! l = None ∨ (∃ d x, h !! l = Some d ∧ dict_get k d = Some (Atom x)) →
  set_path h l (k :: rest) v = h.
Proof.
  intros Hrest H. destruct rest; [done|]. simpl.
  destruct H as [->|(d & x & -> & ->)]; done.
Qed.

Lemma store_get_path_step (k : str) (rest : list str) (h : heap) (l : nat)
    (d : object) :
  h !! l = Some d →
  get_path h (k :: rest) (Ref l)
  = match dict_get k d with
    | Some v => get_path h rest v
    | None => None
    end.
Proof. intros Hl. simpl. by rewrite Hl. Qed.

(** A path written from an empty dictionary leaves in it the first key
    of the path and no other. *)
Lemma set_path_empty_cell (k : str) (rest : list str) (v : value)
    (h : heap) (l : nat) :
  h !! l = Some [] →
  ∃ x, set_path h l (k :: rest) v !! l = Some [(k, x)].
Proof.
  intros Hl. destruct rest as [|k2 rest].
  - exists v. simpl. by rewrite (write_same _ _ _ _ _ Hl).
  - destruct (set_path_create k (k2 :: rest) v h l [] ltac:(done) Hl eq_refl)
      as (-> & Hfresh & Hsame & Hlen).
    assert (Hlt : (l < length h)%nat) by (by eapply lookup_lt_Some).
    exists (Ref (length h)).
    rewrite set_path_empty_frame; [exact Hsame | exact Hfresh | lia | lia].
Qed.

(** Below a key that [set] had to make, the path of another key that
    parts from the written one leads nowhere. *)
Lemma set_path_fresh_none (common : list str) (a b : str)
    (p' q' : list str) (v : value) (h : heap) (l : nat) :
  a ≠ b → h !! l = Some [] →
  get_path (set_path h l (common ++ a :: p') v) (common ++ b :: q') (Ref l)
  = None.
Proof.
  intros Hab. revert h l.
  induction common as [|k common IH]; intros h l Hl.
  - destruct (set_path_empty_cell a p' v h l Hl) as [x Hx].
    simpl app. rewrite (store_get_path_step _ _ _ _ _ Hx). simpl.
    by rewrite bool_decide_eq_false_2.
  - rewrite <- !app_comm_cons.
    destruct (set_path_create k (common ++ a :: p') v h l []
                (app_cons_not_nil' _ _ _) Hl eq_refl)
      as (Hstep & Hfresh & Hsame & Hlen).
    assert (Hlt : (l < length h)%nat) by (by eapply lookup_lt_Some).
    rewrite Hstep.
    erewrite store_get_path_step;
      [|rewrite set_path_empty_frame; [exact Hsame | exact Hfresh | lia | lia]].
    simpl dict_set. simpl dict_get. rewrite bool_decide_eq_true_2 by done.
    by apply IH.
Qed.

(** [set] leaves alone every dictionary that is not on its path. *)
Lemma set_path_off_path (keys : list str) (v : value) (h : heap)
    (l l0 : nat) :
  (l0 < length h)%nat →
  (∀ w over, keys = w ++ over → over ≠ [] →
             get_path h w (Ref l) ≠ Some (Ref l0)) →
  set_path h l keys v !! l0 = h !! l0.
Proof.
  revert h l. induction keys as [|k rest IH]; intros h l Hlt Hoff; [done|].
  assert (Hne : l0 ≠ l).
  { intros ->. by apply (Hoff [] (k :: rest)). }
  destruct (decide (rest = [])) as [->|Hrest]; [by apply write_other|].
  destruct (h !! l) as [d|] eqn:Hl;
    [|rewrite set_path_stuck; [done | done | by left]].
  destruct (dict_get k d) as [[x|below]|] eqn:Hk.
  - rewrite set_path_stuck; [done | done | right; by exists d, x].
  - rewrite (set_path_below _ _ _ _ _ _ _ Hrest Hl Hk). apply IH; [done|].
    intros w over Hw Hover Hreach.
    apply (Hoff (k :: w) over); [by rewrite Hw | done|].
    by rewrite (store_get_path_step _ _ _ _ _ Hl), Hk.
  - destruct (set_path_create k rest v h l d Hrest Hl Hk)
      as (-> & Hfresh & Hsame & Hlen).
    rewrite set_path_empty_frame; [| exact Hfresh | lia | lia].
    rewrite write_other by done. by apply lookup_app_l.
Qed.

(** A walk gives the same result in two heaps that agree on the
    dictionaries it goes through. *)
Lemma get_path_frame (q : list str) (v' : value) (h h' : heap) :
  (∀ w over l0, q = w ++ over → over ≠ [] →
                get_path h w v' = Some (Ref l0) → h' !! l0 = h !! l0) →
  get_path h' q v' = get_path h q v'.
Proof.
  revert v'. induction q as [|k q IH]; intros v' Hsame; [done|].
  simpl. destruct v' as [x|l]; [done|].
  rewrite (Hsame [] (k :: q) l); [|done..].
  destruct (h !! l) as [d|] eqn:Hl; [|done].
  destruct (dict_get k d) as [v2|] eqn:Hk; [|done].
  apply IH. intros w over l0 Hw Hover Hreach.
  apply (Hsame (k :: w) over); [by rewrite Hw | done|].
  simpl. by rewrite Hl, Hk.
Qed.

(** In a closed heap a walk that starts at a dictionary ends at one, if
    it ends at an address. *)
Lemma get_path_closed (w : list str) (h : heap) (l l0 : nat) :
  closed h → (l < length h)%nat →
  get_path h w (Ref l) = Some (Ref l0) → (l0 < length h)%nat.
Proof.
  intros Hclosed. revert l. induction w as [|k w IH]; intros l Hlt; simpl.
  - by intros [= <-].
  - destruct (h !! l) as [d|] eqn:Hl; [|done].
    destruct (dict_get k d) as [[x|l1]|] eqn:Hk; [|apply IH|done].
    + by destruct w.
    + by eapply Hclosed.
Qed.

Lemma unshared_below (h : heap) (l l1 : nat) (d : object) (k : str) :
  unshared h l → h !! l = Some d → dict_get k d = Some (Ref l1) →
  unshared h l1.
Proof.
  intros Hun Hl Hk p1 p2 l0 H1 H2.
  assert (Heq : k :: p1 = k :: p2).
  { apply (Hun _ _ l0); simpl; by rewrite Hl, Hk. }
  by injection Heq.
Qed.

(** Where no dictionary is shared, a write along one path leaves what is
    read along a path that parts from it. *)
Lemma set_path_other (common : list str) (a b : str) (p' q' : list str)
    (v : value) (h : heap) (l : nat) :
  a ≠ b → closed h → unshared h l →
  get_path (set_path h l (common ++ a :: p') v) (common ++ b :: q') (Ref l)
  = get_path h (common ++ b :: q') (Ref l).
Proof.
  intros Hab Hclosed. revert l.
  induction common as [|k common IH]; intros l Hun.
  - (* the two paths part at this dictionary *)
    simpl app.
    destruct (h !! l) as [d|] eqn:Hl.
    2: { destruct (decide (p' = [])) as [->|Hp].
         - cbn [ConfigStore.set_path].
           assert (write l a v h = h) as ->; [|done].
           unfold ConfigStore.write. by rewrite Hl.
         - rewrite set_path_stuck; [done | done | by left]. }
    assert (Hlt : (l < length h)%nat) by (by eapply lookup_lt_Some).
    assert (Hself : ∀ w, w ≠ [] → get_path h w (Ref l) ≠ Some (Ref l)).
    { intros w Hw Hreach.
      by specialize (Hun w [] l Hreach eq_refl). }
    (* what the dictionary holds under [b] is the same afterwards, and
       the walk below it meets dictionaries that the write left alone *)
    assert (Hwalk : ∀ h',
      (∃ x, h' !! l = Some (dict_set a x d)) →
      (∀ l0, (l0 < length h)%nat → l0 ≠ l →
             (∀ w l1, dict_get a d = Some (Ref l1) →
                      get_path h w (Ref l1) ≠ Some (Ref l0)) →
             h' !! l0 = h !! l0) →
      get_path h' (b :: q') (Ref l) = get_path h (b :: q') (Ref l)).
    { intros h' [x Hx] Hrest.
      rewrite (store_get_path_step _ _ _ _ _ Hx), (store_get_path_step _ _ _ _ _ Hl).
      rewrite store_get_set_other by done.
      destruct (dict_get b d) as [v'|] eqn:Hb; [|done].
      apply get_path_frame. intros w over l0 Hw Hover Hreach.
      assert (Hfrom : get_path h (b :: w) (Ref l) = Some (Ref l0)).
      { by rewrite (store_get_path_step _ _ _ _ _ Hl), Hb. }
      apply Hrest.
      - destruct v' as [y|l2]; [by destruct w|].
        eapply (get_path_closed w h l2); [done | by eapply Hclosed | done].
      - intros ->. by apply (Hself (b :: w)).
      - intros w2 l1 Ha Hreach2.
        assert (Hfrom2 : get_path h (a :: w2) (Ref l) = Some (Ref l0)).
        { by rewrite (store_get_path_step _ _ _ _ _ Hl), Ha. }
        specialize (Hun _ _ _ Hfrom Hfrom2). congruence. }
    destruct (decide (p' = [])) as [->|Hp].
    + (* the key is written here *)
      apply Hwalk.
      * exists v. simpl. by apply write_same.
      * intros l0 _ Hne _. simpl. by apply write_other.
    + destruct (dict_get a d) as [[x|below]|] eqn:Ha.
      * rewrite set_path_stuck; [done | done | right; by exists d, x].
      * rewrite (set_path_below _ _ _ _ _ _ _ Hp Hl Ha).
        apply Hwalk.
        -- exists (Ref below).
           assert (Hsame : dict_set a (Ref below) d = d).
           { clear -Ha. induction d as [|[k' v'] d IH]; simpl in *; [done|].
             destruct (bool_decide (a = k')) eqn:Hk.
             - apply bool_decide_eq_true in Hk as <-. congruence.
             - by rewrite IH. }
           rewrite Hsame, <- Hl.
           apply set_path_off_path; [done|].
           intros w over Hw Hover Hreach.
           apply (Hself (a :: w)); [done|].
           by rewrite (store_get_path_step _ _ _ _ _ Hl), Ha.
        -- intros l0 Hlt0 Hne Hoff.
           apply set_path_off_path; [done|].
           intros w over Hw Hover. by apply (Hoff w below).
      * destruct (set_path_create a p' v h l d Hp Hl Ha)
          as (Hstep & Hfresh & Hsame & Hlen).
        rewrite Hstep. apply Hwalk.
        -- exists (Ref (length h)).
           rewrite set_path_empty_frame; [done | done | lia | lia].
        -- intros l0 Hlt0 Hne _.
           rewrite set_path_empty_frame; [| done | lia | lia].
           rewrite write_other by done. by apply lookup_app_l.
  - (* both paths go on under the key [k] *)
    rewrite <- !app_comm_cons.
    pose proof (app_cons_not_nil' common a p') as Hrest.
    destruct (h !! l) as [d|] eqn:Hl;
      [|rewrite set_path_stuck; [done | done | by left]].
    assert (Hlt : (l < length h)%nat) by (by eapply lookup_lt_Some).
    destruct (dict_get k d) as [[x|below]|] eqn:Hk.
    + rewrite set_path_stuck; [done | done | right; by exists d, x].
    + rewrite (set_path_below _ _ _ _ _ _ _ Hrest Hl Hk).
      assert (Hkept : set_path h below (common ++ a :: p') v !! l = Some d).
      { rewrite <- Hl. apply set_path_off_path; [done|].
        intros w over Hw Hover Hreach.
        assert (Hfrom : get_path h (k :: w) (Ref l) = Some (Ref l)).
        { by rewrite (store_get_path_step _ _ _ _ _ Hl), Hk. }
        by specialize (Hun _ [] _ Hfrom eq_refl). }
      rewrite (store_get_path_step _ _ _ _ _ Hkept), (store_get_path_step _ _ _ _ _ Hl).
      rewrite Hk. apply IH. by eapply unshared_below.
    + destruct (set_path_create k _ v h l d Hrest Hl Hk)
        as (Hstep & Hfresh & Hsame & Hlen).
      rewrite Hstep, (store_get_path_step _ _ _ _ _ Hl), Hk.
      erewrite store_get_path_step;
        [|rewrite set_path_empty_frame; [exact Hsame | exact Hfresh | lia | lia]].
      rewrite store_get_set. by apply set_path_fresh_none.
Qed.

End ConfigStoreFacts.


(** X22: in a heap where every address held is the address of a
    dictionary and no dictionary is reached from [self.config] along two
    paths, [set] on one dotted key leaves what [get] returns for every
    dotted key that parts from it at some component. *)
Theorem get_other_after_set (atom : Type)
    (h : list (list (str * ConfigStore.value atom))) (config : nat)
    (key key' : str) (v default : ConfigStore.value atom)
    (common : list str) (a b : str) (p' q' : list str) :
  ConfigStore.closed atom h →
  ConfigStore.unshared atom h config →
  split_on 46 key = common ++ a :: p' →
  split_on 46 key' = common ++ b :: q' →
  a ≠ b →
  ConfigStore.get atom (ConfigStore.set atom h config key v) config key'
    default
  = ConfigStore.get atom h config key' default.
Proof.
  intros Hclosed Hun Hkey Hkey' Hab.
  unfold ConfigStore.get, ConfigStore.set. rewrite Hkey, Hkey'.
  by rewrite set_path_other.
Qed.

Lemma sample_heap_closed : ConfigStore.closed Z Scenarios.sample_heap.
Proof.
  intros l d k l' Hl Hk.
  destruct l as [|[|l]]; simpl in Hl; [| |done]; injection Hl as <-;
    simpl in Hk; repeat case_bool_decide; simplify_eq; simpl; lia.
Qed.

Lemma sample_heap_unshared :
  ConfigStore.unshared Z Scenarios.sample_heap 0.
Proof.
  assert (Hpaths : ∀ p l,
    ConfigStore.get_path Z Scenarios.sample_heap p (ConfigStore.Ref 0%nat)
    = Some (ConfigStore.Ref l) →
    (p = [] ∧ l = 0%nat) ∨ (p = [lit "ocr"] ∧ l = 1%nat)).
  { intros p l. destruct p as [|k1 p]; [intros [= <-]; by left|].
    simpl. case_bool_decide as Hocr.
    - subst k1. destruct p as [|k2 p]; [intros [= <-]; by right|].
      simpl. repeat case_bool_decide; destruct p; done.
    - case_bool_decide; [|done]. destruct p; done. }
  intros p1 p2 l H1 H2.
  destruct (Hpaths _ _ H1) as [[-> ->]|[-> ->]],
           (Hpaths _ _ H2) as [[-> ?]|[-> ?]]; done.
Qed.

Lemma get_other_after_set_witness :
  ConfigStore.get Z
    (ConfigStore.set Z Scenarios.sample_heap 0 (lit "ocr.engine")
       (ConfigStore.Atom 7%Z))
    0 (lit "ocr.confidence_threshold") (ConfigStore.Atom 0%Z)
  = ConfigStore.get Z Scenarios.sample_heap 0
      (lit "ocr.confidence_threshold") (ConfigStore.Atom 0%Z).
Proof.
  apply (get_other_after_set Z Scenarios.sample_heap 0 (lit "ocr.engine")
           (lit "ocr.confidence_threshold") (ConfigStore.Atom 7%Z)
           (ConfigStore.Atom 0%Z) [lit "ocr"] (lit "engine")
           (lit "confidence_threshold") [] []).
  - exact sample_heap_closed.
  - exact sample_heap_unshared.
  - reflexivity.
  - reflexivity.
  - vm_compute. discriminate.
Defined.

(** Where a dictionary is held twice this fails: after
    [set('backup', get('ocr'))], a [set] on "ocr.engine" changes what
    [get] returns for "backup.engine". *)
Example shared_section_follows :
  ConfigStore.get Z Scenarios.aliased_heap 0 (lit "backup.engine")
    (ConfigStore.Atom 0%Z) = ConfigStore.Atom 1%Z
  ∧ ConfigStore.get Z
      (ConfigStore.set Z Scenarios.aliased_heap 0 (lit "ocr.engine")
         (ConfigStore.Atom 7%Z))
      0 (lit "backup.engine") (ConfigStore.Atom 0%Z)
    = ConfigStore.Atom 7%Z.
Proof. split; vm_compute; reflexivity. Qed.

(** ** Regions *)

Lemma validate_region_spec (size : option (Z * Z)) (x y width height : Z) :
  ScreenCapture.validate_region size (x, y, width, height) = true ↔
  (0 ≤ x ∧ 0 ≤ y
   ∧ x + width ≤ (ScreenCapture.get_screen_size size).1
   ∧ y + height ≤ (ScreenCapture.get_screen_size size).2
   ∧ 10 ≤ width ∧ 10 ≤ height)%Z.
Proof.
  unfold ScreenCapture.validate_region.
  destruct (ScreenCapture.get_screen_size size) as [sw sh]. simpl.
  destruct (Z.ltb_spec x 0), (Z.ltb_spec y 0),
    (Z.ltb_spec sw (x + width)), (Z.ltb_spec sh (y + height)),
    (Z.leb_spec width 0), (Z.leb_spec height 0),
    (Z.ltb_spec width 10), (Z.ltb_spec height 10); simpl;
    split; try discriminate; try lia; done.
Qed.

(** X24: [validate_region] accepts a region exactly when it starts at
    non-negative coordinates, ends on the screen and is at least 10 by 10
    pixels, the screen being 1920 by 1080 when its size cannot be read.
    For an accepted region the four positions that
    [_click_target_region] tries (before the random offsets) are on the
    screen. *)
Theorem validate_region_iff (size : option (Z * Z)) (x y width height : Z) :
  let screen := ScreenCapture.get_screen_size size in
  (ScreenCapture.validate_region size (x, y, width, height) = true ↔
   (0 ≤ x ∧ 0 ≤ y ∧ x + width ≤ screen.1 ∧ y + height ≤ screen.2
    ∧ 10 ≤ width ∧ 10 ≤ height)%Z)
  ∧ (ScreenCapture.validate_region size (x, y, width, height) = true →
     Forall (λ pos, (0 ≤ pos.1 ≤ screen.1 ∧ 0 ≤ pos.2 ≤ screen.2)%Z)
            (click_positions (x, y, width, height))).
Proof.
  cbv zeta. split; [apply validate_region_spec|].
  intros (Hx & Hy & Hw & Hh & Hw10 & Hh10)%validate_region_spec.
  pose proof (tenths_bounds 9 height) as H9.
  pose proof (tenths_bounds 8 height) as H8.
  pose proof (tenths_bounds 2 width) as H2.
  pose proof (tenths_bounds 8 width) as H8w.
  assert (0 ≤ width `div` 2 ≤ width)%Z.
  { split; [apply Z.div_pos; lia | apply Z.div_le_upper_bound; lia]. }
  unfold click_positions. repeat constructor; simpl; lia.
Qed.

(** X25: a drag whose ends are more than 50 pixels apart in both
    directions selects the rectangle between its ends, the same one
    whichever end the drag starts from, and if both ends are on the
    screen the selected region passes [validate_region].  Any other drag
    leaves the earlier selection in place. *)
Theorem on_mouse_up_region (x1 y1 x2 y2 screen_width screen_height : Z)
    (before : option (Z * Z * Z * Z)) :
  let released :=
    RegionSelectorWindow.on_mouse_up (Some x1) (Some y1) (x2, y2) before in
  ((50 < Z.abs (x2 - x1))%Z ∧ (50 < Z.abs (y2 - y1))%Z →
   released = Some (Z.min x1 x2, Z.min y1 y2,
                    Z.abs (x2 - x1), Z.abs (y2 - y1))
   ∧ RegionSelectorWindow.on_mouse_up (Some x2) (Some y2) (x1, y1) before
     = released
   ∧ ((0 ≤ x1 ≤ screen_width)%Z → (0 ≤ x2 ≤ screen_width)%Z →
      (0 ≤ y1 ≤ screen_height)%Z → (0 ≤ y2 ≤ screen_height)%Z →
      ∃ region, released = Some region
        ∧ ScreenCapture.validate_region
            (Some (screen_width, screen_height)) region = true))
  ∧ (¬ ((50 < Z.abs (x2 - x1))%Z ∧ (50 < Z.abs (y2 - y1))%Z) →
     released = before).
Proof.
  cbv zeta. unfold RegionSelectorWindow.on_mouse_up.
  split.
  - intros [Hw Hh].
    rewrite (proj2 (Z.ltb_lt _ _) Hw), (proj2 (Z.ltb_lt _ _) Hh). simpl.
    split; [done|]. split.
    + assert (Hw' : (50 < Z.abs (x1 - x2))%Z) by lia.
      assert (Hh' : (50 < Z.abs (y1 - y2))%Z) by lia.
      rewrite (proj2 (Z.ltb_lt _ _) Hw'), (proj2 (Z.ltb_lt _ _) Hh'). simpl.
      rewrite (Z.min_comm x2 x1), (Z.min_comm y2 y1).
      replace (x1 - x2)%Z with (- (x2 - x1))%Z by lia.
      replace (y1 - y2)%Z with (- (y2 - y1))%Z by lia.
      by rewrite !Z.abs_opp.
    + intros Hx1 Hx2 Hy1 Hy2. eexists. split; [reflexivity|].
      apply (validate_region_spec (Some (screen_width, screen_height))).
      simpl. lia.
  - intros Hsmall.
    destruct (Z.ltb_spec 50 (Z.abs (x2 - x1))),
      (Z.ltb_spec 50 (Z.abs (y2 - y1))); simpl; try done.
    destruct Hsmall. done.
Qed.

(** ** One pass that relays *)

Section RelayFacts.
Variable U : UnicodeTables.




End RelayFacts.


